(** * lib/config/index.js: the configuration pipeline

    A shallow embedding of [parseConfigs], [repoName], [mergeChildConfig]
    and [filterConfig] of [lib/config/index.js], and the properties of the
    configuration pipeline proved about them.

    Modelling conventions.
    - A JavaScript value is a tree ([value]).  Arrays and objects carry the
      location they were allocated at, because [===] on them is reference
      identity; primitives compare by content.
    - An object is a finite map from property names to values (own
      enumerable properties).  Properties inherited from the built-in
      prototypes ([toString], [constructor], ...) are not modelled, numbers
      are integers (no [NaN], no fractions) and strings are ASCII.
    - The function bodies run in a state and exception monad [M]: the state
      holds the allocator of fresh locations and the list of effects
      performed on the collaborators (logger, platform APIs); a [throw] or
      a rejected promise is [Throw].  [await] is sequencing, and the
      promises of [Promise.all] are awaited in list order.  A log call is
      recorded with its level and message, without its payload object.
    - The modules required by the file ([./definitions], [./defaults],
      [./file], [./cli], [./env], [./presets], [../platform/*]) are
      parameters of the functions that call them. *)

From stdpp Require Import gmap strings list fin_maps pretty.

Local Set Warnings "-register-all".

Open Scope string_scope.

(** ** Values *)

Definition loc := nat.

Inductive value :=
  | VUndefined
  | VNull
  | VBool (b : bool)
  | VNum (n : Z)
  | VStr (s : string)
  | VArr (l : loc) (xs : list value)
  | VObj (l : loc) (fs : gmap string value).

Abbreviation fields := (gmap string value).

(** ToBoolean: [!v] is [negb (truthy v)]. *)
Definition truthy (v : value) : bool :=
  match v with
  | VUndefined | VNull => false
  | VBool b => b
  | VNum n => negb (n =? 0)%Z
  | VStr s => negb (String.eqb s EmptyString)
  | VArr _ _ | VObj _ _ => true
  end.

(** [a === b] *)
Definition strictEq (a b : value) : bool :=
  match a, b with
  | VUndefined, VUndefined => true
  | VNull, VNull => true
  | VBool x, VBool y => Bool.eqb x y
  | VNum x, VNum y => (x =? y)%Z
  | VStr x, VStr y => String.eqb x y
  | VArr l _, VArr l' _ => Nat.eqb l l'
  | VObj l _, VObj l' _ => Nat.eqb l l'
  | _, _ => false
  end.

(** The characters of a string, each as a one-character string. *)
Fixpoint chars (s : string) : list value :=
  match s with
  | EmptyString => []
  | String c s' => VStr (String c EmptyString) :: chars s'
  end.

(** Index-keyed properties of a sequence: ["0"], ["1"], ... *)
Definition indexed (xs : list value) : fields :=
  list_to_map (imap (fun i x => (pretty i, x)) xs).

(** The own enumerable properties of a value, as object spread [{...v}]
    copies them: nothing for [undefined], [null], booleans and numbers. *)
Definition ownProps (v : value) : fields :=
  match v with
  | VObj _ fs => fs
  | VArr _ xs => indexed xs
  | VStr s => indexed (chars s)
  | _ => ∅
  end.

(** ToString, as template literals and [String.prototype.concat] apply it. *)
Fixpoint toString (v : value) : string :=
  match v with
  | VUndefined => "undefined"
  | VNull => "null"
  | VBool true => "true"
  | VBool false => "false"
  | VNum n => pretty n
  | VStr s => s
  | VArr _ xs =>
      (fix join (ys : list value) : string :=
         match ys with
         | [] => EmptyString
         | y :: ys' =>
             let e := match y with
                      | VUndefined | VNull => EmptyString
                      | _ => toString y
                      end in
             match ys' with
             | [] => e
             | _ :: _ => e ++ "," ++ join ys'
             end
         end) xs
  | VObj _ _ => "[object Object]"
  end.

(** ** Errors, effects and the monad *)

Inductive platform := Github | Gitlab | Vsts.

Inductive error :=
  (** [new Error('You need to supply a ... token.')] *)
  | MissingToken (p : platform)
  (** [new Error(`Unsupported platform: ${config.platform}.`)] *)
  | UnsupportedPlatform (shown : string)
  (** raised by the language: property of [undefined], not a function, ... *)
  | TypeError
  (** raised or rejected by a collaborator *)
  | CollaboratorError (msg : string).

Inductive result (A : Type) :=
  | Ok (a : A)
  | Throw (e : error).
Arguments Ok {A} a.
Arguments Throw {A} e.

(** What a collaborator answers: a value, or a failure (an exception of a
    loader, a rejected promise of the preset resolver or of a platform). *)
Inductive reply :=
  | Reply (v : value)
  | Failure (msg : string).

Inductive effect :=
  (** [logger.trace|debug|info(..., msg)] *)
  | Log (level msg : string)
  (** [logger.levels(name, level)] *)
  | LogLevels (name : string) (level : value)
  (** [logger.addStream({name, path, level})] *)
  | LogAddStream (name : string) (path level : value)
  (** [<platform>Api.getRepos(token, endpoint)] *)
  | GetRepos (p : platform) (token endpoint : value).

Record state := mkState {
  next_loc : loc;
  effects : list effect
}.

Definition M (A : Type) : Type := state → result A * state.

Definition ret {A} (a : A) : M A := fun s => (Ok a, s).
Definition throw {A} (e : error) : M A := fun s => (Throw e, s).
Definition bind {A B} (m : M A) (k : A → M B) : M B :=
  fun s => match m s with
           | (Ok a, s') => k a s'
           | (Throw e, s') => (Throw e, s')
           end.

#[global] Instance M_ret : MRet M := @ret.
#[global] Instance M_bind : MBind M := fun A B k m => bind m k.

Definition lift {A} (r : result A) : M A := fun s => (r, s).

(** The answer of a collaborator, awaited where it is a promise. *)
Definition call (r : reply) : M value :=
  match r with
  | Reply v => ret v
  | Failure msg => throw (CollaboratorError msg)
  end.

(** A fresh location: [{...}], [[]], [concat], [Promise.all]. *)
Definition alloc : M loc :=
  fun s => (Ok (next_loc s), mkState (S (next_loc s)) (effects s)).

Definition perform (e : effect) : M unit :=
  fun s => (Ok tt, mkState (next_loc s) (effects s ++ [e])).

Definition log (level msg : string) : M unit := perform (Log level msg).

Fixpoint foldM {A B} (f : A → B → M A) (a : A) (xs : list B) : M A :=
  match xs with
  | [] => ret a
  | x :: xs' => a' ← f a x; foldM f a' xs'
  end.

Fixpoint mapM {A B} (f : A → M B) (xs : list A) : M (list B) :=
  match xs with
  | [] => ret []
  | x :: xs' => y ← f x; ys ← mapM f xs'; ret (y :: ys)
  end.

(** ** Property access *)

(** [v[k]] / [v.k]: a [TypeError] on [undefined] and [null]; own
    properties of objects; indices and [length] of arrays and strings. *)
Definition get (v : value) (k : string) : result value :=
  match v with
  | VUndefined | VNull => Throw TypeError
  | VBool _ | VNum _ => Ok VUndefined
  | VObj _ fs => Ok (default VUndefined (fs !! k))
  | VArr _ xs =>
      if String.eqb k "length" then Ok (VNum (Z.of_nat (length xs)))
      else Ok (default VUndefined (indexed xs !! k))
  | VStr s =>
      if String.eqb k "length" then Ok (VNum (Z.of_nat (String.length s)))
      else Ok (default VUndefined (indexed (chars s) !! k))
  end.

(** [Object.prototype.hasOwnProperty.call(v, k)] *)
Definition hasOwnProperty (v : value) (k : string) : result bool :=
  match v with
  | VUndefined | VNull => Throw TypeError
  | VBool _ | VNum _ => Ok false
  | VObj _ fs => Ok (bool_decide (is_Some (fs !! k)))
  | VArr _ xs =>
      Ok (String.eqb k "length" || bool_decide (is_Some (indexed xs !! k)))
  | VStr s =>
      Ok (String.eqb k "length"
          || bool_decide (is_Some (indexed (chars s) !! k)))
  end.

(** [xs.indexOf(v)]: the first index whose element is [=== v], or [-1]. *)
Fixpoint indexOf (xs : list value) (v : value) : Z :=
  match xs with
  | [] => -1
  | x :: xs' =>
      if strictEq x v then 0
      else let i := indexOf xs' v in if (i =? -1)%Z then -1 else (i + 1)%Z
  end.

(** [xs.find(f)], where the callback may throw. *)
Fixpoint find (f : value → result bool) (xs : list value) : result value :=
  match xs with
  | [] => Ok VUndefined
  | x :: xs' =>
      match f x with
      | Throw e => Throw e
      | Ok true => Ok x
      | Ok false => find f xs'
      end
  end.

(** [arr.find(f)]: only arrays have the method. *)
Definition arrayFind (arr : value) (f : value → result bool) : result value :=
  match arr with
  | VArr _ xs => find f xs
  | _ => Throw TypeError
  end.

(** [v || []] *)
Definition orEmptyArray (v : value) : M value :=
  if truthy v then ret v else l ← alloc; ret (VArr l []).

(** [p.concat(x)]: [Array.prototype.concat] spreads an array argument and
    appends anything else as one element; [String.prototype.concat]
    appends the argument's string; no other value has the method. *)
Definition concat (p x : value) : M value :=
  match p with
  | VArr _ xs =>
      l ← alloc;
      ret (VArr l (xs ++ match x with VArr _ ys => ys | _ => [x] end))
  | VStr s => ret (VStr (s ++ toString x))
  | _ => throw TypeError
  end.

(** The elements [...v] spreads into an argument list: [v] must be
    iterable. *)
Definition iterate (v : value) : result (list value) :=
  match v with
  | VArr _ xs => Ok xs
  | VStr s => Ok (chars s)
  | _ => Throw TypeError
  end.

(** [{...acc, ...v}]: the properties of [v] override those of [acc]. *)
Definition spread (acc : fields) (v : value) : fields := ownProps v ∪ acc.

(** [config[k] = v] on the configuration object. *)
Definition setProp (config : value) (k : string) (v : value) : value :=
  match config with
  | VObj l fs => VObj l (<[k := v]> fs)
  | _ => config
  end.

(** [delete config[k]], for a [k] that is neither an index nor [length]. *)
Definition deleteProp (config : value) (k : string) : result value :=
  match config with
  | VUndefined | VNull => Throw TypeError
  | VObj l fs => Ok (VObj l (delete k fs))
  | _ => Ok config
  end.

(** ** The option registry ([./definitions]) *)

Record optionDef := mkOption {
  name : string;
  type : string;
  (** [undefined] when the definition declares no stage *)
  stage : value;
  mergeable : bool
}.

Definition stages : list value :=
  [VStr "global"; VStr "repository"; VStr "packageFile"; VStr "depType";
   VStr "package"; VStr "branch"; VStr "pr"].

(** ** repoName *)

Definition repoName (repo : value) : result value :=
  match hasOwnProperty repo "repository" with
  | Throw e => Throw e
  | Ok true => get repo "repository"
  | Ok false => Ok repo
  end.

Section Config.

(** [definitions.getOptions()] *)
Variable definitions_getOptions : list optionDef.

(** ** mergeChildConfig *)

(** The body of the loop over the options (lines 153-173); [config] is
    the object under construction. *)
Definition mergeOption (parentConfig childConfig : value)
    (config : fields) (option : optionDef) : M fields :=
  if negb (mergeable option) then ret config else
  c ← lift (get childConfig (name option));
  if negb (truthy c) then ret config else
  p ← lift (get parentConfig (name option));
  if negb (truthy p) then ret config else
  log "trace" ("mergeable option: " ++ name option);;
  merged ←
    (if String.eqb (type option) "list" then
       p' ← lift (get parentConfig (name option));
       lhs ← orEmptyArray p';
       rhs ← orEmptyArray (default VUndefined (config !! name option));
       concat lhs rhs
     else
       p' ← lift (get parentConfig (name option));
       c' ← lift (get childConfig (name option));
       l ← alloc;
       ret (VObj l (spread (spread ∅ p') c')));
  log "trace" ("Merged config." ++ name option);;
  ret (<[name option := merged]> config).

Definition mergeChildConfig (parentConfig childConfig : value) : M value :=
  log "trace" "mergeChildConfig";;
  if negb (truthy childConfig) then ret parentConfig else
  l ← alloc;
  config ← foldM (mergeOption parentConfig childConfig)
             (spread (spread ∅ parentConfig) childConfig)
             definitions_getOptions;
  ret (VObj l config).

(** ** filterConfig *)

(** The body of the loop over the options (lines 192-195). *)
Definition filterOption (targetIndex : Z) (outputConfig : fields)
    (option : optionDef) : fields :=
  let optionIndex := indexOf stages (stage option) in
  if negb (optionIndex =? -1)%Z && (optionIndex <? targetIndex)%Z
  then delete (name option) outputConfig
  else outputConfig.

Definition filterConfig (inputConfig targetStage : value) : M value :=
  log "trace" ("filterConfig('" ++ toString targetStage ++ "')");;
  l ← alloc;
  let outputConfig := spread ∅ inputConfig in
  let targetIndex := indexOf stages targetStage in
  ret (VObj l (fold_left (filterOption targetIndex)
                 definitions_getOptions outputConfig)).

End Config.

(** ** parseConfigs *)

(** The name a platform is configured by. *)
Definition platformName (p : platform) : string :=
  match p with
  | Github => "github"
  | Gitlab => "gitlab"
  | Vsts => "vsts"
  end.

(** The environment variable holding a platform's credential. *)
Definition tokenVariable (p : platform) : string :=
  match p with
  | Github => "GITHUB_TOKEN"
  | Gitlab => "GITLAB_TOKEN"
  | Vsts => "VSTS_TOKEN"
  end.

(** [config.platform === '<name>'] *)
Definition platformIs (config : value) (p : platform) : M bool :=
  pf ← lift (get config "platform");
  ret (strictEq pf (VStr (platformName p))).

(** [if (!config.token && !env.<VAR>) throw ...] *)
Definition checkToken (config env : value) (p : platform) : M unit :=
  token ← lift (get config "token");
  if truthy token then ret tt else
  credential ← lift (get env (tokenVariable p));
  if truthy credential then ret tt else throw (MissingToken p).

(** Check platforms and tokens (lines 59-74). *)
Definition checkPlatform (config env : value) : M unit :=
  github ← platformIs config Github;
  if (github : bool) then checkToken config env Github else
  gitlab ← platformIs config Gitlab;
  if (gitlab : bool) then checkToken config env Gitlab else
  vsts ← platformIs config Vsts;
  if (vsts : bool) then checkToken config env Vsts else
  pf ← lift (get config "platform");
  throw (UnsupportedPlatform (toString pf)).

(** [config.repositories.push(repo)] *)
Definition pushRepository (config repo : value) : M value :=
  repositories ← lift (get config "repositories");
  match repositories with
  | VArr l xs => ret (setProp config "repositories" (VArr l (xs ++ [repo])))
  | _ => throw TypeError
  end.

(** The body of the loop over the discovered repositories
    (lines 99-111). *)
Definition addDiscovered (config repo : value) : M value :=
  newRepoName ← lift (repoName repo);
  configuredRepo ←
    (if truthy newRepoName then
       repositories ← lift (get config "repositories");
       lift (arrayFind repositories
               (fun r => match repoName r with
                         | Ok n => Ok (strictEq n newRepoName)
                         | Throw e => Throw e
                         end))
     else ret newRepoName);
  if truthy configuredRepo then
    log "trace" "Discovered repo which is already configured, using config.";;
    ret config
  else pushRepository config repo.

(** [{...defaultConfig, ...fileConfig, ...cliConfig, ...envConfig}] *)
Definition mergeSources (defaultConfig fileConfig cliConfig envConfig : value)
    : fields :=
  spread (spread (spread (spread ∅ defaultConfig) fileConfig) cliConfig)
    envConfig.

(** Set log level, add file logger and log the sources (lines 36-57). *)
Definition configureLogging (config : value) : M unit :=
  logLevel ← lift (get config "logLevel");
  perform (LogLevels "stdout" logLevel);;
  logFile ← lift (get config "logFile");
  (if truthy logFile then
     logFileLevel ← lift (get config "logFileLevel");
     log "debug" ("Enabling " ++ toString logFileLevel ++ " logging to "
                  ++ toString logFile);;
     perform (LogAddStream "logfile" logFile logFileLevel)
   else ret tt);;
  log "trace" "Default config";;
  log "debug" "File config";;
  log "debug" "CLI config";;
  log "debug" "Env config";;
  log "trace" "Raw config".

Section Pipeline.

(** The source loaders: [defaultsParser.getConfig()],
    [fileParser.getConfig(env)], [cliParser.getConfig(argv)],
    [envParser.getConfig(env)]. *)
Variable defaultsParser_getConfig : reply.
Variable fileParser_getConfig : value → reply.
Variable cliParser_getConfig : value → reply.
Variable envParser_getConfig : value → reply.

(** [resolveConfigPresets(config)] of [./presets]. *)
Variable resolveConfigPresets : value → reply.

(** [githubApi.getRepos], [gitlabApi.getRepos], [vstsApi.getRepos]. *)
Variable githubApi_getRepos : value → value → reply.
Variable gitlabApi_getRepos : value → value → reply.
Variable vstsApi_getRepos : value → value → reply.

Definition api_getRepos (p : platform) : value → value → reply :=
  match p with
  | Github => githubApi_getRepos
  | Gitlab => gitlabApi_getRepos
  | Vsts => vstsApi_getRepos
  end.

(** [...(await <p>Api.getRepos(config.token, config.endpoint))] *)
Definition listRepos (config : value) (p : platform) : M (list value) :=
  token ← lift (get config "token");
  endpoint ← lift (get config "endpoint");
  perform (GetRepos p token endpoint);;
  repos ← call (api_getRepos p token endpoint);
  lift (iterate repos).

(** Autodiscover list of repositories (lines 78-95). *)
Definition discover (config : value) : M (list value) :=
  _ ← alloc;
  github ← platformIs config Github;
  if (github : bool) then
    log "info" "Autodiscovering GitHub repositories";;
    listRepos config Github
  else
  gitlab ← platformIs config Gitlab;
  if (gitlab : bool) then
    log "info" "Autodiscovering GitLab repositories";;
    listRepos config Gitlab
  else
  vsts ← platformIs config Vsts;
  if (vsts : bool) then
    log "info" "Autodiscovering vsts repositories";;
    listRepos config Vsts
  else ret [].

(** The callback of [config.repositories.map] (lines 124-128).  The
    promises of [Promise.all] are awaited in list order. *)
Definition resolveRepository (repo : value) : M value :=
  match repo with
  | VObj _ _ => call (resolveConfigPresets repo)
  | _ => ret repo
  end.

(** From the per-repository presets to the end (lines 122-137). *)
Definition finishConfig (config : value) : M value :=
  repositories ← lift (get config "repositories");
  config ←
    match repositories with
    | VArr _ ((_ :: _) as xs) =>
        resolved ← mapM resolveRepository xs;
        l ← alloc;
        ret (setProp config "repositories" (VArr l resolved))
    | _ => ret config
    end;
  log "trace" "Global config";;
  config ← lift (deleteProp config "logFile");
  config ← lift (deleteProp config "logFileLevel");
  ret config.

(** Get configs and resolve their presets (lines 21-34). *)
Definition loadConfig (env argv : value) : M value :=
  log "debug" "Parsing configs";;
  defaultConfig ← call defaultsParser_getConfig;
  fileConfig ← call (fileParser_getConfig env);
  cliConfig ← call (cliParser_getConfig argv);
  envConfig ← call (envParser_getConfig env);
  l ← alloc;
  call (resolveConfigPresets
    (VObj l (mergeSources defaultConfig fileConfig cliConfig envConfig))).

(** Autodiscovery and what follows it (lines 76-137). *)
Definition discoverAndFinish (config : value) : M value :=
  autodiscover ← lift (get config "autodiscover");
  if truthy autodiscover then
    discovered ← discover config;
    if negb (length discovered =? 0)%nat then
      config ← foldM addDiscovered config discovered;
      finishConfig config
    else
      log "info" ("The account associated with your token does not have "
                  ++ "access to any repos");;
      ret config
  else finishConfig config.

Definition parseConfigs (env argv : value) : M value :=
  config ← loadConfig env argv;
  configureLogging config;;
  checkPlatform config env;;
  discoverAndFinish config.

End Pipeline.

(** ** Vocabulary of the properties *)

(** The option declares a stage of the list, at an index strictly less
    than the index of the target stage. *)
Definition stagedBefore (option : optionDef) (targetStage : value) : Prop :=
  indexOf stages (stage option) ≠ (-1)%Z ∧
  (indexOf stages (stage option) < indexOf stages targetStage)%Z.

(** The keys of [input] that [output] no longer has. *)
Definition removedKeys (input output : fields) : gset string :=
  dom input ∖ dom output.

(** The value has a [concat] method: arrays and strings. *)
Definition hasConcat (v : value) : bool :=
  match v with
  | VArr _ _ | VStr _ => true
  | _ => false
  end.

(** Every non-empty parent value of a mergeable list option can be
    concatenated to. *)
Definition listsConcatenable (options : list optionDef) (parent : fields)
    : Prop :=
  ∀ o v, o ∈ options → mergeable o = true → type o = "list" →
         parent !! name o = Some v → truthy v = true → hasConcat v = true.

(** The platform a [platform] value selects, if it is a supported one. *)
Definition supportedPlatform (pf : value) : option platform :=
  if strictEq pf (VStr "github") then Some Github
  else if strictEq pf (VStr "gitlab") then Some Gitlab
  else if strictEq pf (VStr "vsts") then Some Vsts
  else None.

(** Neither [config.token] nor the platform's environment variable holds
    a credential. *)
Definition credentialMissing (config env : value) (p : platform) : Prop :=
  (∃ token, get config "token" = Ok token ∧ truthy token = false) ∧
  (∃ credential, get env (tokenVariable p) = Ok credential
                 ∧ truthy credential = false).

(** The platform is not a supported one, or its credential is missing. *)
Definition invalidPlatform (config env : value) : Prop :=
  ∃ pf, get config "platform" = Ok pf ∧
    (supportedPlatform pf = None ∨
     ∃ p, supportedPlatform pf = Some p ∧ credentialMissing config env p).

(** The platform [p] is configured and a credential for it is available. *)
Definition validPlatform (config env : value) (p : platform) : Prop :=
  ∃ pf token, get config "platform" = Ok pf ∧ supportedPlatform pf = Some p ∧
    get config "token" = Ok token ∧
    (truthy token = true ∨
     ∃ credential, get env (tokenVariable p) = Ok credential
                   ∧ truthy credential = true).

(** The fatal configuration errors of [parseConfigs]. *)
Definition isFatal (e : error) : bool :=
  match e with
  | MissingToken _ | UnsupportedPlatform _ => true
  | TypeError | CollaboratorError _ => false
  end.

(** The repository-listing calls among the effects. *)
Definition isListing (e : effect) : bool :=
  match e with
  | GetRepos _ _ _ => true
  | _ => false
  end.

Definition listingCalls (s : state) : list effect :=
  filter (λ e, isListing e = true) (effects s).

(** A computation that throws no fatal configuration error. *)
Definition quiet {A} (m : M A) : Prop :=
  ∀ s e s', m s = (Throw e, s') → isFatal e = false.

(** A computation that performs no repository-listing call. *)
Definition silent {A} (m : M A) : Prop :=
  ∀ s r s', m s = (r, s') → listingCalls s' = listingCalls s.

(** [undefined] and [null], the values without properties. *)
Definition nullish (v : value) : bool :=
  match v with
  | VUndefined | VNull => true
  | _ => false
  end.

(** The two entries have the same identifier. *)
Definition sameIdentifier (a b : value) : bool :=
  match repoName a, repoName b with
  | Ok n, Ok m => strictEq n m
  | _, _ => false
  end.

(** The identifier of [repo] is non-empty and an entry of [xs] has it. *)
Definition alreadyListed (xs : list value) (repo : value) : bool :=
  match repoName repo with
  | Ok n => truthy n && existsb (λ r, sameIdentifier r repo) xs
  | Throw _ => false
  end.

(** Autodiscovery, entry by entry: the discovered entries are visited in
    order; an entry already listed is dropped, any other is appended to
    the list as it is. *)
Definition mergeDiscovered (xs discovered : list value) : list value :=
  fold_left
    (λ acc repo, if alreadyListed acc repo then acc else (acc ++ [repo])%list)
    discovered xs.

(** Autodiscovery as the specification words it: a discovered entry is
    dropped when a configured entry has its identifier, and appended
    otherwise. *)
Definition mergeDiscoveredSpec (xs discovered : list value)
    : list value :=
  (xs ++ filter (λ repo, existsb (λ r, sameIdentifier r repo) xs = false)
           discovered)%list.

(** ** Concrete inputs *)

(** An object literal. *)
Definition object (l : loc) (kvs : list (string * value)) : value :=
  VObj l (list_to_map kvs).

Definition initial : state := mkState 100 [].

(** A registry with one option per stage, an option without a stage and
    mergeable options of both kinds. *)
Definition sampleOptions : list optionDef :=
  [ mkOption "logLevel" "string" (VStr "global") false;
    mkOption "token" "string" (VStr "repository") false;
    mkOption "packageFiles" "list" (VStr "packageFile") false;
    mkOption "depTypes" "list" (VStr "depType") false;
    mkOption "pinVersions" "boolean" (VStr "package") false;
    mkOption "branchName" "string" (VStr "branch") false;
    mkOption "prTitle" "string" (VStr "pr") false;
    mkOption "labels" "list" VUndefined true;
    mkOption "lockFileMaintenance" "json" VUndefined true ].

(** A configuration that sets a repository-stage option and a key the
    registry does not know, and no package- or branch-stage option. *)
Definition tokenOnlyConfig : value :=
  object 1 [("token", VStr "abc"); ("semanticCommits", VBool true)].

(** A configuration with keys of several stages. *)
Definition stagedConfig : value :=
  object 1 [("token", VStr "abc"); ("pinVersions", VBool true);
            ("branchName", VStr "renovate/deps"); ("prTitle", VStr "Update");
            ("semanticCommits", VBool true)].

(** The configured repository of the deduplication example. *)
Definition configuredRepo : value :=
  object 2 [("repository", VStr "org/repo");
            ("extends", VArr 3 [VStr ":base"])].

(** A configuration whose one repository has the empty identifier. *)
Definition emptyNameConfig : value :=
  object 1 [("repositories", VArr 2 [VStr EmptyString])].

(** The sources of a run that asks for a log file and autodiscovery. *)
Definition defaultsSample : value :=
  object 1 [("logLevel", VStr "error"); ("logFileLevel", VStr "debug");
            ("repositories", VArr 2 [])].

Definition fileSample : value :=
  object 3 [("platform", VStr "github"); ("token", VStr "abc");
            ("autodiscover", VBool true); ("logFile", VStr "renovate.log")].

(** A preset resolver for configurations without presets. *)
Definition noPresets (config : value) : reply := Reply config.

(** A platform on which the token sees no repository. *)
Definition noRepos (token endpoint : value) : reply := Reply (VArr 9 []).

(** A platform on which the token sees one repository. *)
Definition oneRepo (token endpoint : value) : reply :=
  Reply (VArr 9 [VStr "org/repo"]).

(** [parseConfigs] on these sources, with the given GitHub listing. *)
Definition parseSample (githubApi_getRepos : value → value → reply)
    : M value :=
  parseConfigs (Reply defaultsSample) (λ _, Reply fileSample)
    (λ _, Reply (object 4 [])) (λ _, Reply (object 5 []))
    noPresets githubApi_getRepos noRepos noRepos
    (object 6 []) (VArr 7 []).

(** The configuration these sources resolve to. *)
Definition resolvedSample : value :=
  VObj 100 (mergeSources defaultsSample fileSample (object 4 [])
              (object 5 [])).

(** Parent and child configurations with mergeable values. *)
Definition parentSample : fields :=
  list_to_map
    [("labels", VArr 2 [VStr "deps"; VStr "renovate"]);
     ("lockFileMaintenance",
      object 3 [("enabled", VBool false); ("schedule", VStr "monthly")]);
     ("branchName", VStr "renovate/parent")].

Definition childSample : fields :=
  list_to_map
    [("labels", VArr 5 [VStr "renovate"; VStr "child"]);
     ("lockFileMaintenance", object 6 [("enabled", VBool true)]);
     ("branchName", VStr "renovate/child")].

(** A file configuration for a platform that is not supported. *)
Definition bitbucketSample : value :=
  object 3 [("platform", VStr "bitbucket"); ("token", VStr "abc")].

(** ** Vocabulary of the further properties *)

(** A decimal digit. *)
Definition isDigit (c : Ascii.ascii) : bool :=
  (48 <=? Ascii.nat_of_ascii c)%nat && (Ascii.nat_of_ascii c <=? 57)%nat.

(** A string of decimal digits, as the index keys of arrays are. *)
Fixpoint numeral (k : string) : bool :=
  match k with
  | EmptyString => true
  | String c k' => isDigit c && numeral k'
  end.

(** The own properties of the value a computation returns, if it returns
    one. *)
Definition returnedProps (m : M value) (s : state) : option fields :=
  match m s with
  | (Ok v, _) => Some (ownProps v)
  | (Throw _, _) => None
  end.

(** A computation whose only failure is a [TypeError]. *)
Definition typeErrorsOnly {A} (m : M A) : Prop :=
  ∀ s e s', m s = (Throw e, s') → e = TypeError.

(** The option is mergeable and the child holds a non-empty value for
    it. *)
Definition mergedFromChild (child : fields) (o : optionDef) : Prop :=
  mergeable o = true ∧ truthy (default VUndefined (child !! name o)) = true.

(** How [parseConfigs] resolves one repository entry: an object through
    the preset resolver, anything else as it is. *)
Definition resolvedFrom (resolveConfigPresets : value → reply)
    (repo resolved : value) : Prop :=
  match repo with
  | VObj _ _ => resolveConfigPresets repo = Reply resolved
  | _ => resolved = repo
  end.

(** The keys [parseConfigs] may touch in the resolved configuration. *)
Definition pipelineKey (k : string) : bool :=
  String.eqb k "repositories" || String.eqb k "logFile"
  || String.eqb k "logFileLevel".

(** A preset resolver that knows no preset. *)
Definition failingPresets (config : value) : reply :=
  match config with
  | VObj _ fs =>
      match fs !! "extends" with
      | Some _ => Failure "Cannot find preset"
      | None => Reply config
      end
  | _ => Reply config
  end.

(** A file loader that cannot parse its file. *)
Definition brokenFile (env : value) : reply := Failure "Invalid config file".

(** The entry has an identifier, and a non-empty one. *)
Definition identified (repo : value) : bool :=
  match repoName repo with
  | Ok n => truthy n
  | Throw _ => false
  end.

(** A file configuration without autodiscovery. *)
Definition plainFileSample : value :=
  object 3 [("platform", VStr "github"); ("token", VStr "abc")].

(** A configuration with an object entry and a bare entry. *)
Definition twoRepositories : fields :=
  list_to_map [("repositories", VArr 2 [configuredRepo; VStr "org/other"]);
               ("logFile", VStr "renovate.log")].

(** * Properties *)

(** ** The monad *)

Lemma bind_Ok {A B} (m : M A) (k : A → M B) s a s' :
  m s = (Ok a, s') → (m ≫= k) s = k a s'.
Proof. unfold mbind, M_bind, bind. by intros ->. Qed.

Lemma bind_Throw {A B} (m : M A) (k : A → M B) s e s' :
  m s = (Throw e, s') → (m ≫= k) s = (Throw e, s').
Proof. unfold mbind, M_bind, bind. by intros ->. Qed.

Lemma bind_inv_Ok {A B} (m : M A) (k : A → M B) s b s2 :
  (m ≫= k) s = (Ok b, s2) →
  ∃ a s1, m s = (Ok a, s1) ∧ k a s1 = (Ok b, s2).
Proof.
  unfold mbind, M_bind, bind. destruct (m s) as [[a|e] s1]; [eauto | done].
Qed.

Ltac run := unfold mbind, M_bind, bind, mret, M_ret, ret, throw, lift, log,
  perform, alloc; simpl.

(** Membership in a list given by its elements. *)
Ltac elem_of_list :=
  apply list_elem_of_In; vm_compute; repeat (first [by left | right]).

(** ** Values *)

Lemma strictEq_VStr s v : strictEq (VStr s) v = true ↔ v = VStr s.
Proof.
  destruct v; simpl; try (split; [done | discriminate]).
  rewrite String.eqb_eq. split; congruence.
Qed.

Lemma indexOf_ge xs v : (-1 ≤ indexOf xs v)%Z.
Proof.
  induction xs as [|x xs IH]; simpl; [lia|].
  destruct (strictEq x v); [lia|].
  destruct (Z.eqb_spec (indexOf xs v) (-1)); lia.
Qed.

Lemma indexOf_absent xs v :
  indexOf xs v = (-1)%Z ↔ ∀ x, x ∈ xs → strictEq x v = false.
Proof.
  induction xs as [|x xs IH]; simpl.
  - split; [|done]. intros _ y Hy. by apply elem_of_nil in Hy.
  - destruct (strictEq x v) eqn:E.
    + split; [done|]. intros H. specialize (H x (list_elem_of_here _ _)).
      congruence.
    + pose proof (indexOf_ge xs v) as Hge.
      destruct (Z.eqb_spec (indexOf xs v) (-1)) as [Hi|Hi].
      * split; [|done]. intros _ y [->|Hy]%elem_of_cons; [done|].
        by apply IH.
      * split; [lia|]. intros H. exfalso. apply Hi, IH.
        intros y Hy. apply H. by right.
Qed.

Lemma spread_empty v : spread ∅ v = ownProps v.
Proof. unfold spread. apply (right_id_L ∅ (∪)). Qed.

Lemma lookup_spread acc v k :
  spread acc v !! k =
    match ownProps v !! k with Some x => Some x | None => acc !! k end.
Proof.
  unfold spread. rewrite lookup_union.
  destruct (ownProps v !! k), (acc !! k); done.
Qed.

(** ** Precedence of the sources *)

(** Key by key, the last source that defines the key wins. *)
Lemma mergeSources_lookup defaultConfig fileConfig cliConfig envConfig k :
  mergeSources defaultConfig fileConfig cliConfig envConfig !! k =
    match ownProps envConfig !! k with
    | Some v => Some v
    | None =>
        match ownProps cliConfig !! k with
        | Some v => Some v
        | None =>
            match ownProps fileConfig !! k with
            | Some v => Some v
            | None => ownProps defaultConfig !! k
            end
        end
    end.
Proof.
  unfold mergeSources. rewrite !lookup_spread, lookup_empty.
  by destruct (ownProps defaultConfig !! k).
Qed.

(** ** Stage filter *)

Lemma stagedBefore_spec option targetStage :
  negb (indexOf stages (stage option) =? -1)%Z
  && (indexOf stages (stage option) <? indexOf stages targetStage)%Z = true
  ↔ stagedBefore option targetStage.
Proof.
  unfold stagedBefore.
  rewrite andb_true_iff, negb_true_iff, Z.eqb_neq, Z.ltb_lt. done.
Qed.

Lemma filterOption_lookup_ne targetIndex out option k :
  name option ≠ k → filterOption targetIndex out option !! k = out !! k.
Proof.
  intros Hne. unfold filterOption.
  destruct (_ && _); [by rewrite lookup_delete_ne | done].
Qed.

(** A key survives the loop only with its input value. *)
Lemma fold_filterOption_lookup targetIndex options out k :
  fold_left (filterOption targetIndex) options out !! k = None ∨
  fold_left (filterOption targetIndex) options out !! k = out !! k.
Proof.
  revert out. induction options as [|o options IH]; intros out; simpl.
  - by right.
  - destruct (IH (filterOption targetIndex out o)) as [H|H]; [by left|].
    rewrite H. unfold filterOption. destruct (_ && _); [|by right].
    destruct (decide (name o = k)) as [->|Hne].
    + left. apply lookup_delete_eq.
    + right. by apply lookup_delete_ne.
Qed.

Lemma fold_filterOption_removed targetStage options out option :
  option ∈ options → stagedBefore option targetStage →
  fold_left (filterOption (indexOf stages targetStage)) options out
    !! name option = None.
Proof.
  revert out. induction options as [|o options IH]; intros out Hin Hbefore.
  - by apply elem_of_nil in Hin.
  - cbn [fold_left]. apply elem_of_cons in Hin as [Heq|Hin]; [subst o|by apply IH].
    destruct (fold_filterOption_lookup (indexOf stages targetStage) options
      (filterOption (indexOf stages targetStage) out option) (name option))
      as [H|H]; [done|].
    rewrite H. unfold filterOption.
    apply stagedBefore_spec in Hbefore. rewrite Hbefore.
    apply lookup_delete_eq.
Qed.

Lemma fold_filterOption_retained targetStage options out k :
  (∀ o, o ∈ options → name o = k → ¬ stagedBefore o targetStage) →
  fold_left (filterOption (indexOf stages targetStage)) options out !! k
    = out !! k.
Proof.
  revert out.
  induction options as [|o options IH]; intros out Hkeep; cbn [fold_left].
  - done.
  - rewrite IH by (intros o' Ho'; apply Hkeep; by right).
    unfold filterOption.
    destruct (_ && _) eqn:E; [|done].
    apply stagedBefore_spec in E.
    destruct (decide (name o = k)) as [Hk|Hk].
    + exfalso. eapply Hkeep; [by left | done | done].
    + by apply lookup_delete_ne.
Qed.

Lemma filterConfig_run options inputConfig targetStage s :
  filterConfig options inputConfig targetStage s =
    (Ok (VObj (next_loc s)
           (fold_left (filterOption (indexOf stages targetStage)) options
              (ownProps inputConfig))),
     mkState (S (next_loc s))
       (effects s
        ++ [Log "trace" ("filterConfig('" ++ toString targetStage ++ "')")])).
Proof. unfold filterConfig. run. by rewrite spread_empty. Qed.

(** C7. [filterConfig] returns a new object that lacks the key of every
    option whose declared stage comes strictly before the target stage in
    the list of stages, and holds every other key of the input with its
    input value: keys whose definitions declare no listed stage or a
    stage at or after the target, and keys the registry does not know. *)
Theorem filterConfig_removes_exactly_earlier_stages
    (options : list optionDef) (inputConfig targetStage : value) (s : state) :
  ∃ (output : fields) (s' : state),
    filterConfig options inputConfig targetStage s
      = (Ok (VObj (next_loc s) output), s') ∧
    (∀ o, o ∈ options → stagedBefore o targetStage →
          output !! name o = None) ∧
    (∀ k, (∀ o, o ∈ options → name o = k → ¬ stagedBefore o targetStage) →
          output !! k = ownProps inputConfig !! k).
Proof.
  eexists _, _. split; [apply filterConfig_run|]. split.
  - intros o Hin Hbefore. by apply fold_filterOption_removed.
  - intros k Hkeep. by apply fold_filterOption_retained.
Qed.

Lemma strictEq_refl_VStr s : strictEq (VStr s) (VStr s) = true.
Proof. simpl. apply String.eqb_refl. Qed.

(** The stage names are exactly the values [indexOf] finds. *)
Lemma not_stage_index v : v ∉ stages ↔ indexOf stages v = (-1)%Z.
Proof.
  rewrite indexOf_absent. split.
  - intros Hnot x Hx. destruct (strictEq x v) eqn:E; [|done].
    exfalso. apply Hnot. unfold stages in Hx.
    repeat (apply elem_of_cons in Hx as [->|Hx];
            [apply strictEq_VStr in E; subst; set_solver|]).
    by apply elem_of_nil in Hx.
  - intros Hall Hin. specialize (Hall v Hin). unfold stages in Hin.
    repeat (apply elem_of_cons in Hin as [->|Hin];
            [by rewrite strictEq_refl_VStr in Hall|]).
    by apply elem_of_nil in Hin.
Qed.

(** C10. A target stage outside the seven stage names has index [-1]:
    [filterConfig] then removes nothing and returns a new object with
    exactly the properties of the input. *)
Theorem filterConfig_unknown_stage
    (options : list optionDef) (inputConfig targetStage : value) (s : state) :
  targetStage ∉ stages →
  indexOf stages targetStage = (-1)%Z ∧
  ∃ s', filterConfig options inputConfig targetStage s
          = (Ok (VObj (next_loc s) (ownProps inputConfig)), s').
Proof.
  intros Hnot.
  assert (Hidx : indexOf stages targetStage = (-1)%Z)
    by (by apply not_stage_index).
  split; [done|]. eexists. rewrite filterConfig_run.
  replace (fold_left _ options (ownProps inputConfig))
    with (ownProps inputConfig); [done|].
  apply map_eq. intros k. symmetry. apply fold_filterOption_retained.
  intros o _ _ [Hne Hlt]. rewrite Hidx in Hlt.
  pose proof (indexOf_ge stages (stage o)). lia.
Qed.

Lemma filterConfig_unknown_stage_witness :
  (VStr "lockFile" ∉ stages) ∧
  (indexOf stages (VStr "lockFile") = (-1)%Z ∧
   ∃ s', filterConfig sampleOptions stagedConfig (VStr "lockFile") initial
           = (Ok (VObj (next_loc initial) (ownProps stagedConfig)), s')).
Proof.
  assert (H : VStr "lockFile" ∉ stages).
  { apply not_stage_index. reflexivity. }
  split; [done|].
  exact (filterConfig_unknown_stage sampleOptions stagedConfig
           (VStr "lockFile") initial H).
Defined.

(** A key is gone after the loop exactly when the input lacked it or an
    option of that name is staged before the target. *)
Lemma fold_filterOption_None targetStage options out k :
  fold_left (filterOption (indexOf stages targetStage)) options out !! k = None
  ↔ out !! k = None ∨
    ∃ o, o ∈ options ∧ name o = k ∧ stagedBefore o targetStage.
Proof.
  revert out.
  induction options as [|o options IH]; intros out; cbn [fold_left].
  - split; [by left|]. intros [H|(o & Ho & _)]; [done|].
    by apply elem_of_nil in Ho.
  - rewrite IH. unfold filterOption at 1.
    destruct (_ && _) eqn:E.
    + apply stagedBefore_spec in E. split.
      * intros [H|(o' & Ho' & Hk & Hb)].
        -- destruct (decide (name o = k)) as [Hk|Hk].
           ++ right. exists o. split; [by left | done].
           ++ left. by rewrite lookup_delete_ne in H.
        -- right. exists o'. split; [by right | done].
      * intros [H|(o' & [->|Ho']%elem_of_cons & Hk & Hb)].
        -- left. apply lookup_delete_None. by right.
        -- left. rewrite <- Hk. apply lookup_delete_eq.
        -- right. by exists o'.
    + split.
      * intros [H|(o' & Ho' & Hk & Hb)]; [by left|].
        right. exists o'. split; [by right | done].
      * intros [H|(o' & [->|Ho']%elem_of_cons & Hk & Hb)].
        -- by left.
        -- apply stagedBefore_spec in Hb. congruence.
        -- right. by exists o'.
Qed.

Lemma stagedBefore_package_pr o :
  stagedBefore o (VStr "package") → stagedBefore o (VStr "pr").
Proof.
  intros [Hne Hlt]. split; [done|].
  change (indexOf stages (VStr "package")) with 4%Z in Hlt.
  change (indexOf stages (VStr "pr")) with 6%Z. lia.
Qed.

Lemma stagedBefore_pr_of_stage o :
  stage o = VStr "package" ∨ stage o = VStr "branch" →
  stagedBefore o (VStr "pr").
Proof. unfold stagedBefore. intros [->| ->]; by vm_compute. Qed.

(** C8, as the code has it.  Whatever [filterConfig] removes from a
    configuration at target stage [package] it also removes at target
    stage [pr]; the inclusion is strict as soon as the configuration holds
    a key of an option staged at [package] or [branch] that no definition
    of the same name stages before [package]. *)
Theorem filterConfig_pr_removes_superset_of_package
    (options : list optionDef) (inputConfig : value) (s : state) :
  ∃ (atPackage atPr : fields) (s1 s2 : state),
    filterConfig options inputConfig (VStr "package") s
      = (Ok (VObj (next_loc s) atPackage), s1) ∧
    filterConfig options inputConfig (VStr "pr") s
      = (Ok (VObj (next_loc s) atPr), s2) ∧
    removedKeys (ownProps inputConfig) atPackage
      ⊆ removedKeys (ownProps inputConfig) atPr ∧
    (∀ o, o ∈ options →
          stage o = VStr "package" ∨ stage o = VStr "branch" →
          is_Some (ownProps inputConfig !! name o) →
          (∀ o', o' ∈ options → name o' = name o →
                 ¬ stagedBefore o' (VStr "package")) →
          removedKeys (ownProps inputConfig) atPackage
            ⊂ removedKeys (ownProps inputConfig) atPr).
Proof.
  eexists _, _, _, _.
  split; [apply filterConfig_run|]. split; [apply filterConfig_run|].
  set (input := ownProps inputConfig).
  set (atPackage := fold_left _ options input).
  set (atPr := fold_left _ options input).
  assert (Hsub : removedKeys input atPackage ⊆ removedKeys input atPr).
  { intros k. unfold removedKeys. rewrite !elem_of_difference.
    rewrite !not_elem_of_dom. intros [Hin Hgone]. split; [done|].
    apply fold_filterOption_None. apply fold_filterOption_None in Hgone.
    destruct Hgone as [Hnone|(o & Ho & Hk & Hb)].
    - by left.
    - right. exists o. eauto using stagedBefore_package_pr. }
  split; [done|].
  intros o Ho Hstage Hset Hkeep. split; [done|].
  intros Hback.
  assert (Hin : name o ∈ removedKeys input atPr).
  { unfold removedKeys. rewrite elem_of_difference, not_elem_of_dom.
    split; [by apply elem_of_dom|].
    apply fold_filterOption_None. right. exists o.
    eauto using stagedBefore_pr_of_stage. }
  apply Hback in Hin. unfold removedKeys in Hin.
  rewrite elem_of_difference, not_elem_of_dom in Hin.
  destruct Hin as [_ Hgone].
  unfold atPackage in Hgone.
  rewrite fold_filterOption_retained in Hgone by done.
  destruct Hset as [x Hx]. fold input in Hx. congruence.
Qed.

(** C8 as stated fails: the registry has options staged at [package] and
    at [branch], but the configuration sets neither, so both targets
    remove the same keys (only [token]). *)
Lemma filterConfig_pr_superset_not_strict :
  (∃ o, o ∈ sampleOptions ∧ stage o = VStr "package") ∧
  ∃ (atPackage atPr : fields) (s1 s2 : state),
    filterConfig sampleOptions tokenOnlyConfig (VStr "package") initial
      = (Ok (VObj 100 atPackage), s1) ∧
    filterConfig sampleOptions tokenOnlyConfig (VStr "pr") initial
      = (Ok (VObj 100 atPr), s2) ∧
    ¬ (removedKeys (ownProps tokenOnlyConfig) atPackage
         ⊂ removedKeys (ownProps tokenOnlyConfig) atPr).
Proof.
  split.
  { exists (mkOption "pinVersions" "boolean" (VStr "package") false).
    split; [|done]. elem_of_list. }
  eexists _, _, _, _.
  split; [apply filterConfig_run|]. split; [apply filterConfig_run|].
  intros [_ Hstrict]. apply Hstrict.
  by vm_compute.
Qed.

Lemma filterConfig_pr_removes_superset_of_package_witness :
  ∃ (atPackage atPr : fields),
    removedKeys (ownProps stagedConfig) atPackage
      ⊂ removedKeys (ownProps stagedConfig) atPr.
Proof.
  destruct (filterConfig_pr_removes_superset_of_package sampleOptions
              stagedConfig initial)
    as (atPackage & atPr & s1 & s2 & _ & _ & _ & Hstrict).
  exists atPackage, atPr.
  apply (Hstrict (mkOption "branchName" "string" (VStr "branch") false)).
  - elem_of_list.
  - by right.
  - exists (VStr "renovate/deps"). reflexivity.
  - intros o' Ho' Hname [Hne Hlt]. unfold sampleOptions in Ho'.
    repeat (apply elem_of_cons in Ho' as [->|Ho'];
            [by vm_compute in Hlt || done|]).
    by apply elem_of_nil in Ho'.
Defined.

(** ** Config merger *)

(** C9. With a child that is absent ([undefined], [null] or any other
    falsy value) [mergeChildConfig] returns [parentConfig] itself, for
    every [parentConfig]; it only logs the call. *)
Theorem mergeChildConfig_absent_child
    (options : list optionDef) (parentConfig childConfig : value) (s : state) :
  truthy childConfig = false →
  mergeChildConfig options parentConfig childConfig s =
    (Ok parentConfig,
     mkState (next_loc s) (effects s ++ [Log "trace" "mergeChildConfig"])).
Proof. intros Hfalsy. unfold mergeChildConfig. run. by rewrite Hfalsy. Qed.

Lemma mergeChildConfig_absent_child_witness :
  truthy VUndefined = false ∧
  mergeChildConfig sampleOptions stagedConfig VUndefined initial =
    (Ok stagedConfig,
     mkState (next_loc initial)
       (effects initial ++ [Log "trace" "mergeChildConfig"])).
Proof.
  split; [reflexivity|].
  apply (mergeChildConfig_absent_child sampleOptions stagedConfig VUndefined
           initial).
  reflexivity.
Defined.

(** [mergeOption] only writes the key of its option. *)
Lemma mergeOption_other parentConfig childConfig config option s config' s' k :
  mergeOption parentConfig childConfig config option s = (Ok config', s') →
  k ≠ name option → config' !! k = config !! k.
Proof.
  unfold mergeOption. intros Hrun Hne.
  destruct (mergeable option); simpl in Hrun; [|by inversion Hrun].
  apply bind_inv_Ok in Hrun as (c & s1 & _ & Hrun).
  destruct (truthy c); simpl in Hrun; [|by inversion Hrun].
  apply bind_inv_Ok in Hrun as (p & s2 & _ & Hrun).
  destruct (truthy p); simpl in Hrun; [|by inversion Hrun].
  apply bind_inv_Ok in Hrun as (? & s3 & _ & Hrun).
  apply bind_inv_Ok in Hrun as (merged & s4 & _ & Hrun).
  apply bind_inv_Ok in Hrun as (? & s5 & _ & Hrun).
  inversion Hrun; subst. by rewrite lookup_insert_ne.
Qed.

Lemma foldM_mergeOption_other parentConfig childConfig options config s
    config' s' k :
  foldM (mergeOption parentConfig childConfig) config options s
    = (Ok config', s') →
  k ∉ name <$> options → config' !! k = config !! k.
Proof.
  revert config s. induction options as [|o options IH]; intros config s.
  - simpl. by inversion 1.
  - cbn [foldM fmap list_fmap]. intros Hrun Hnot.
    apply bind_inv_Ok in Hrun as (config1 & s1 & Hhead & Hrun).
    apply not_elem_of_cons in Hnot as [Hne Hnot].
    rewrite (IH _ _ Hrun Hnot). by eapply mergeOption_other.
Qed.

Lemma orEmptyArray_truthy v s : truthy v = true → orEmptyArray v s = (Ok v, s).
Proof. unfold orEmptyArray. by intros ->. Qed.

(** A mergeable list option with array values on both sides. *)
Lemma mergeOption_list lp pf lc cf config o s a xs b ys config' s' :
  mergeable o = true → type o = "list" →
  pf !! name o = Some (VArr a xs) → cf !! name o = Some (VArr b ys) →
  config !! name o = Some (VArr b ys) →
  mergeOption (VObj lp pf) (VObj lc cf) config o s = (Ok config', s') →
  config' !! name o = Some (VArr (next_loc s) (xs ++ ys)).
Proof.
  intros Hm Ht Hp Hc Hcfg. unfold mergeOption.
  rewrite Hm, Ht. simpl. rewrite Hp, Hc, Hcfg. run.
  intros [= <- <-]. apply lookup_insert_eq.
Qed.

(** A mergeable option of another type with non-empty values on both
    sides. *)
Lemma mergeOption_object lp pf lc cf config o s pv cv config' s' :
  mergeable o = true → type o ≠ "list" →
  pf !! name o = Some pv → cf !! name o = Some cv →
  truthy pv = true → truthy cv = true →
  mergeOption (VObj lp pf) (VObj lc cf) config o s = (Ok config', s') →
  config' !! name o = Some (VObj (next_loc s) (ownProps cv ∪ ownProps pv)).
Proof.
  intros Hm Ht Hp Hc Hpv Hcv. unfold mergeOption.
  apply String.eqb_neq in Ht.
  rewrite Hm, Ht. simpl. rewrite Hp, Hc. run. rewrite Hpv, Hcv. simpl.
  intros [= <- <-]. rewrite lookup_insert_eq.
  unfold spread. by rewrite (right_id_L ∅ (∪)).
Qed.

(** With object configurations the loop body cannot fail, except in
    [concat]. *)
Lemma mergeOption_succeeds lp pf lc cf config o s :
  (mergeable o = true → type o = "list" →
   ∀ v, pf !! name o = Some v → truthy v = true → hasConcat v = true) →
  ∃ config' s',
    mergeOption (VObj lp pf) (VObj lc cf) config o s = (Ok config', s').
Proof.
  intros Hsafe. unfold mergeOption.
  destruct (mergeable o); simpl; [|by eexists _, _].
  run.
  destruct (truthy (default VUndefined (cf !! name o))); simpl;
    [|by eexists _, _].
  destruct (pf !! name o) as [pv|] eqn:Hp; simpl; [|by eexists _, _].
  destruct (truthy pv) eqn:Hpv; simpl; [|by eexists _, _].
  destruct (String.eqb_spec (type o) "list") as [Ht|Ht]; simpl.
  - specialize (Hsafe eq_refl Ht pv eq_refl Hpv).
    unfold orEmptyArray. rewrite Hpv. run.
    destruct (truthy (default VUndefined (config !! name o))); run;
      destruct pv; try discriminate; run; by eexists _, _.
  - by eexists _, _.
Qed.

Lemma foldM_mergeOption_succeeds lp pf lc cf options config s :
  listsConcatenable options pf →
  ∃ config' s',
    foldM (mergeOption (VObj lp pf) (VObj lc cf)) config options s
      = (Ok config', s').
Proof.
  revert config s.
  induction options as [|o options IH]; intros config s Hsafe.
  - by eexists _, _.
  - cbn [foldM].
    destruct (mergeOption_succeeds lp pf lc cf config o s)
      as (config1 & s1 & Hhead).
    { intros Hm Ht v Hv Htruthy. eapply Hsafe; eauto. by left. }
    destruct (IH config1 s1) as (config' & s' & Hrest).
    { intros o' v Ho'. apply Hsafe. by right. }
    exists config', s'. by rewrite (bind_Ok _ _ _ _ _ Hhead).
Qed.

(** With unique option names, what the loop leaves under the key of an
    option is what the body wrote when it visited that option. *)
Lemma foldM_mergeOption_key (P : option value → Prop) parentConfig childConfig
    options o cv :
  NoDup (name <$> options) → o ∈ options →
  (∀ config s config' s',
     config !! name o = Some cv →
     mergeOption parentConfig childConfig config o s = (Ok config', s') →
     P (config' !! name o)) →
  ∀ config s config' s',
    config !! name o = Some cv →
    foldM (mergeOption parentConfig childConfig) config options s
      = (Ok config', s') →
    P (config' !! name o).
Proof.
  intros Hnodup Hin Hstep.
  induction options as [|o0 options IH]; intros config s config' s' Hcfg Hrun.
  - by apply elem_of_nil in Hin.
  - cbn [foldM fmap list_fmap] in *.
    apply NoDup_cons in Hnodup as [Hfresh Hnodup].
    apply bind_inv_Ok in Hrun as (config1 & s1 & Hhead & Hrest).
    apply elem_of_cons in Hin as [Heq|Hin].
    + subst o0.
      rewrite (foldM_mergeOption_other _ _ _ _ _ _ _ _ Hrest Hfresh).
      by eapply Hstep.
    + eapply (IH Hnodup Hin); [|exact Hrest].
      rewrite (mergeOption_other _ _ _ _ _ _ _ (name o) Hhead); [done|].
      intros Heq. apply Hfresh. rewrite <- Heq.
      by apply list_elem_of_fmap_2.
Qed.

Lemma mergeChildConfig_run options parentConfig childConfig s :
  truthy childConfig = true →
  mergeChildConfig options parentConfig childConfig s =
    match foldM (mergeOption parentConfig childConfig)
            (ownProps childConfig ∪ ownProps parentConfig) options
            (mkState (S (next_loc s))
               (effects s ++ [Log "trace" "mergeChildConfig"])) with
    | (Ok config, s') => (Ok (VObj (next_loc s) config), s')
    | (Throw e, s') => (Throw e, s')
    end.
Proof.
  intros Htruthy. unfold mergeChildConfig. run. rewrite Htruthy. simpl.
  unfold spread. rewrite (right_id_L ∅ (∪)).
  by destruct (foldM _ _ _ _) as [[?|?] ?].
Qed.

Lemma mergeOption_empty_child parentConfig lc config o s :
  mergeOption parentConfig (VObj lc ∅) config o s = (Ok config, s).
Proof. unfold mergeOption. by destruct (mergeable o). Qed.

(** A child without properties is not absent: the result is a new object
    with the properties of the parent. *)
Lemma mergeChildConfig_empty_object options lp parent lc s :
  ∃ s', mergeChildConfig options (VObj lp parent) (VObj lc ∅) s
          = (Ok (VObj (next_loc s) parent), s').
Proof.
  rewrite mergeChildConfig_run by done. simpl.
  rewrite (left_id_L ∅ (∪)).
  generalize (mkState (S (next_loc s))
                (effects s ++ [Log "trace" "mergeChildConfig"])).
  intros s0. exists s0.
  assert (Hloop : foldM (mergeOption (VObj lp parent) (VObj lc ∅)) parent
                    options s0 = (Ok parent, s0)).
  { induction options as [|o options IH]; [done|]. cbn [foldM].
    by rewrite (bind_Ok _ _ _ _ _
                  (mergeOption_empty_child (VObj lp parent) lc parent o s0)). }
  by rewrite Hloop.
Qed.

(** C6. For an option marked mergeable (in a registry of unique names)
    for whose key parent and child both hold a non-empty value,
    [mergeChildConfig] returns an object whose value for the key is: for
    type [list], a new array of the parent's entries followed by the
    child's, each side in its order and with its duplicates, so that an
    empty child list leaves the parent's entries as they are; for any
    other type, a new object that holds every property of the child value
    and the properties of the parent value that the child value lacks.
    The call returns whenever the non-empty parent values of the mergeable
    list options are arrays or strings. *)
Theorem mergeChildConfig_mergeable
    (options : list optionDef) (lp lc : loc) (parent child : fields)
    (s : state) (o : optionDef) (pv cv : value) :
  NoDup (name <$> options) → o ∈ options → mergeable o = true →
  parent !! name o = Some pv → child !! name o = Some cv →
  truthy pv = true → truthy cv = true →
  (listsConcatenable options parent →
   ∃ result s',
     mergeChildConfig options (VObj lp parent) (VObj lc child) s
       = (Ok result, s')) ∧
  (∀ result s',
     mergeChildConfig options (VObj lp parent) (VObj lc child) s
       = (Ok result, s') →
     (type o = "list" → ∀ a xs b ys, pv = VArr a xs → cv = VArr b ys →
        ∃ l, get result (name o) = Ok (VArr l (xs ++ ys))) ∧
     (type o = "list" → ∀ a xs b, pv = VArr a xs → cv = VArr b [] →
        ∃ l, get result (name o) = Ok (VArr l xs)) ∧
     (type o ≠ "list" →
        ∃ l merged, get result (name o) = Ok (VObj l merged) ∧
          ∀ k, merged !! k = match ownProps cv !! k with
                             | Some x => Some x
                             | None => ownProps pv !! k
                             end)).
Proof.
  intros Hnodup Hin Hm Hp Hc Hpv Hcv.
  assert (Hinit : (child ∪ parent) !! name o = Some cv)
    by (by apply lookup_union_Some_l).
  split.
  - intros Hsafe. rewrite mergeChildConfig_run by done. simpl.
    destruct (foldM_mergeOption_succeeds lp parent lc child options
                (child ∪ parent)
                (mkState (S (next_loc s))
                   (effects s ++ [Log "trace" "mergeChildConfig"])) Hsafe)
      as (config & s1 & ->).
    by eexists _, _.
  - intros result s'. rewrite mergeChildConfig_run by done. simpl.
    destruct (foldM _ _ _ _) as [[config|e] s1] eqn:Hrun; [|done].
    intros [= <- <-].
    assert (Hlist : type o = "list" → ∀ a xs b ys,
              pv = VArr a xs → cv = VArr b ys →
              ∃ l, get (VObj (next_loc s) config) (name o)
                     = Ok (VArr l (xs ++ ys))).
    { intros Ht a xs b ys -> ->.
      refine (foldM_mergeOption_key
                (λ v, ∃ l, Ok (default VUndefined v) = Ok (VArr l (xs ++ ys)))
                _ _ options o (VArr b ys) Hnodup Hin _ _ _ _ _ Hinit Hrun).
      intros config0 s0 config0' s0' Hcfg Hstep.
      exists (next_loc s0).
      by rewrite (mergeOption_list _ _ _ _ _ _ _ _ _ _ _ _ _
                    Hm Ht Hp Hc Hcfg Hstep). }
    split; [done|]. split.
    + intros Ht a xs b -> ->.
      destruct (Hlist Ht a xs b [] eq_refl eq_refl) as [l Hl].
      exists l. by rewrite app_nil_r in Hl.
    + intros Ht.
      refine (foldM_mergeOption_key
                (λ v, ∃ l merged, Ok (default VUndefined v) = Ok (VObj l merged)
                   ∧ ∀ k, merged !! k = match ownProps cv !! k with
                                        | Some x => Some x
                                        | None => ownProps pv !! k
                                        end)
                _ _ options o cv Hnodup Hin _ _ _ _ _ Hinit Hrun).
      intros config0 s0 config0' s0' Hcfg Hstep.
      exists (next_loc s0), (ownProps cv ∪ ownProps pv).
      rewrite (mergeOption_object _ _ _ _ _ _ _ _ _ _ _
                 Hm Ht Hp Hc Hpv Hcv Hstep).
      split; [done|]. intros k. rewrite lookup_union.
      by destruct (ownProps cv !! k), (ownProps pv !! k).
Qed.

(** ** Platform and token validation *)

Lemma supportedPlatform_name pf p :
  supportedPlatform pf = Some p ↔ pf = VStr (platformName p).
Proof.
  unfold supportedPlatform. split.
  - destruct pf; simpl; try discriminate.
    destruct (String.eqb_spec s "github") as [->|?];
      [by intros [= <-]|].
    destruct (String.eqb_spec s "gitlab") as [->|?];
      [by intros [= <-]|].
    destruct (String.eqb_spec s "vsts") as [->|?];
      [by intros [= <-]|done].
  - intros ->. by destruct p.
Qed.

(** What the check does, by cases on the configuration. *)
Lemma checkPlatform_run config env s :
  checkPlatform config env s =
    match get config "platform" with
    | Throw e => (Throw e, s)
    | Ok pf =>
        match supportedPlatform pf with
        | None => (Throw (UnsupportedPlatform (toString pf)), s)
        | Some p =>
            match get config "token" with
            | Throw e => (Throw e, s)
            | Ok token =>
                if truthy token then (Ok tt, s) else
                match get env (tokenVariable p) with
                | Throw e => (Throw e, s)
                | Ok credential =>
                    if truthy credential then (Ok tt, s)
                    else (Throw (MissingToken p), s)
                end
            end
        end
    end.
Proof.
  unfold checkPlatform, platformIs, checkToken, supportedPlatform. run.
  destruct (get config "platform") as [pf|e]; simpl; [|done].
  destruct (strictEq pf (VStr "github")); simpl.
  { destruct (get config "token") as [t|?]; simpl; [|done].
    destruct (truthy t); simpl; [done|].
    destruct (get env "GITHUB_TOKEN") as [c|?]; simpl; [|done].
    by destruct (truthy c). }
  destruct (strictEq pf (VStr "gitlab")); simpl.
  { destruct (get config "token") as [t|?]; simpl; [|done].
    destruct (truthy t); simpl; [done|].
    destruct (get env "GITLAB_TOKEN") as [c|?]; simpl; [|done].
    by destruct (truthy c). }
  destruct (strictEq pf (VStr "vsts")); simpl.
  { destruct (get config "token") as [t|?]; simpl; [|done].
    destruct (truthy t); simpl; [done|].
    destruct (get env "VSTS_TOKEN") as [c|?]; simpl; [|done].
    by destruct (truthy c). }
  done.
Qed.

Lemma get_error v k e : get v k = Throw e → e = TypeError.
Proof.
  destruct v; simpl; try congruence; by destruct (String.eqb k "length").
Qed.

(** The check throws a fatal error exactly on an invalid platform, and
    leaves the state as it is. *)
Lemma checkPlatform_fatal config env s :
  (∃ e s', checkPlatform config env s = (Throw e, s') ∧ isFatal e = true)
  ↔ invalidPlatform config env.
Proof.
  rewrite checkPlatform_run. unfold invalidPlatform, credentialMissing.
  split.
  - intros (e & s' & Hrun & Hfatal).
    destruct (get config "platform") as [pf|e0] eqn:Hpf.
    2:{ simplify_eq. by rewrite (get_error _ _ _ Hpf) in Hfatal. }
    exists pf. split; [done|].
    destruct (supportedPlatform pf) as [p|] eqn:Hsup; [|by left].
    right. exists p. split; [done|].
    destruct (get config "token") as [token|e0] eqn:Htoken.
    2:{ simplify_eq. by rewrite (get_error _ _ _ Htoken) in Hfatal. }
    destruct (truthy token) eqn:Htruthy; [by simplify_eq|].
    destruct (get env (tokenVariable p)) as [credential|e0] eqn:Hcred.
    2:{ simplify_eq. by rewrite (get_error _ _ _ Hcred) in Hfatal. }
    destruct (truthy credential) eqn:Hc; [by simplify_eq|].
    eauto 10.
  - intros (pf & -> & [->|(p & -> & (t & -> & ->) & (c & -> & ->))]);
      by eexists _, _.
Qed.

Lemma checkPlatform_state config env s r s' :
  checkPlatform config env s = (r, s') → s' = s.
Proof.
  rewrite checkPlatform_run.
  repeat (case_match; try by intros [= _ <-]).
Qed.

Lemma checkPlatform_valid config env s p :
  validPlatform config env p → checkPlatform config env s = (Ok tt, s).
Proof.
  intros (pf & token & Hpf & Hsup & Htoken & Hcred).
  rewrite checkPlatform_run, Hpf, Hsup, Htoken.
  destruct (truthy token); [done|].
  destruct Hcred as [?|(c & -> & ->)]; done.
Qed.

(** *** Computations without fatal errors *)

Lemma bind_inv {A B} (m : M A) (k : A → M B) s r s' :
  (m ≫= k) s = (r, s') →
  (∃ e, m s = (Throw e, s') ∧ r = Throw e) ∨
  (∃ a s1, m s = (Ok a, s1) ∧ k a s1 = (r, s')).
Proof.
  unfold mbind, M_bind, bind. destruct (m s) as [[a|e] s1].
  - right. eauto.
  - intros [= <- <-]. left. eauto.
Qed.

Lemma quiet_bind {A B} (m : M A) (k : A → M B) :
  quiet m → (∀ a, quiet (k a)) → quiet (m ≫= k).
Proof.
  intros Hm Hk s e s' Hrun.
  apply bind_inv in Hrun as [(e' & Hrun & [= <-])|(a & s1 & _ & Hrun)].
  - by eapply Hm.
  - by eapply Hk.
Qed.

Lemma quiet_ret {A} (a : A) : quiet (mret a).
Proof. intros s e s'. by unfold mret, M_ret, ret. Qed.

Lemma quiet_throw {A} e : isFatal e = false → quiet (@throw A e).
Proof. intros He s e' s'. unfold throw. by intros [= <- <-]. Qed.

Lemma quiet_lift {A} (r : result A) :
  (∀ e, r = Throw e → e = TypeError) → quiet (lift r).
Proof. intros Hr s e s'. unfold lift. intros [= -> <-]. by rewrite (Hr e). Qed.

Lemma quiet_call r : quiet (call r).
Proof. destruct r; simpl; [apply quiet_ret | by apply quiet_throw]. Qed.

Lemma quiet_alloc : quiet alloc.
Proof. by intros s e s'. Qed.

Lemma quiet_perform e : quiet (perform e).
Proof. by intros s e' s'. Qed.

Lemma quiet_foldM {A B} (f : A → B → M A) xs a :
  (∀ a x, quiet (f a x)) → quiet (foldM f a xs).
Proof.
  intros Hf. revert a. induction xs as [|x xs IH]; intros a; simpl.
  - apply quiet_ret.
  - apply quiet_bind; [apply Hf | apply IH].
Qed.

Lemma quiet_mapM {A B} (f : A → M B) xs :
  (∀ x, quiet (f x)) → quiet (mapM f xs).
Proof.
  intros Hf. induction xs as [|x xs IH]; simpl.
  - apply quiet_ret.
  - apply quiet_bind; [apply Hf|]. intros y.
    apply quiet_bind; [apply IH|]. intros ys. apply quiet_ret.
Qed.

Lemma hasOwnProperty_error v k e : hasOwnProperty v k = Throw e → e = TypeError.
Proof. destruct v; simpl; congruence. Qed.

Lemma repoName_error repo e : repoName repo = Throw e → e = TypeError.
Proof.
  unfold repoName.
  destruct (hasOwnProperty repo "repository") as [[]|e'] eqn:H.
  - apply get_error.
  - done.
  - intros [= <-]. by eapply hasOwnProperty_error.
Qed.

Lemma find_error f xs e :
  (∀ x e, f x = Throw e → e = TypeError) → find f xs = Throw e → e = TypeError.
Proof.
  intros Hf. induction xs as [|x xs IH]; simpl; [done|].
  destruct (f x) as [[]|e'] eqn:Hx; [done | done |].
  intros [= <-]. by eapply Hf.
Qed.

Lemma arrayFind_error arr f e :
  (∀ x e, f x = Throw e → e = TypeError) →
  arrayFind arr f = Throw e → e = TypeError.
Proof.
  intros Hf. destruct arr; simpl; try congruence. by apply find_error.
Qed.

Lemma iterate_error v e : iterate v = Throw e → e = TypeError.
Proof. destruct v; simpl; congruence. Qed.

Lemma deleteProp_error v k e : deleteProp v k = Throw e → e = TypeError.
Proof. destruct v; simpl; congruence. Qed.

Ltac solve_quiet :=
  repeat first
    [ apply quiet_ret | apply quiet_alloc | apply quiet_perform
    | apply quiet_call
    | apply quiet_lift; first
        [ apply get_error | apply repoName_error | apply iterate_error
        | apply deleteProp_error ]
    | by apply quiet_throw
    | apply quiet_bind; [|intros ?]
    | match goal with |- quiet (if ?b then _ else _) => destruct b end
    | match goal with |- quiet (match ?v with _ => _ end) => destruct v end ].

Lemma quiet_pushRepository config repo : quiet (pushRepository config repo).
Proof. unfold pushRepository. solve_quiet. Qed.

Lemma quiet_addDiscovered config repo : quiet (addDiscovered config repo).
Proof.
  unfold addDiscovered, log. solve_quiet; try apply quiet_pushRepository.
  apply quiet_lift. intros e. apply arrayFind_error.
  intros x e'. destruct (repoName x) eqn:Hx; [done|].
  intros [= <-]. by eapply repoName_error.
Qed.

Lemma quiet_configureLogging config : quiet (configureLogging config).
Proof. unfold configureLogging, log. solve_quiet. Qed.

(** *** Computations without repository-listing calls *)

Lemma silent_bind {A B} (m : M A) (k : A → M B) :
  silent m → (∀ a, silent (k a)) → silent (m ≫= k).
Proof.
  intros Hm Hk s r s' Hrun.
  apply bind_inv in Hrun as [(e' & Hrun & _)|(a & s1 & Hhead & Hrun)].
  - by eapply Hm.
  - rewrite (Hk _ _ _ _ Hrun). by eapply Hm.
Qed.

Lemma silent_ret {A} (a : A) : silent (mret a).
Proof. intros s r s'. unfold mret, M_ret, ret. by intros [= _ <-]. Qed.

Lemma silent_throw {A} e : silent (@throw A e).
Proof. intros s r s'. unfold throw. by intros [= _ <-]. Qed.

Lemma silent_lift {A} (r : result A) : silent (lift r).
Proof. intros s r' s'. unfold lift. by intros [= _ <-]. Qed.

Lemma silent_call r : silent (call r).
Proof. destruct r; simpl; [apply silent_ret | apply silent_throw]. Qed.

Lemma silent_alloc : silent alloc.
Proof. intros s r s'. unfold alloc. by intros [= _ <-]. Qed.

Lemma silent_perform e : isListing e = false → silent (perform e).
Proof.
  intros He s r s'. unfold perform. intros [= _ <-].
  unfold listingCalls. simpl. rewrite filter_app, filter_cons_False.
  - rewrite filter_nil. apply app_nil_r.
  - by rewrite He.
Qed.

Ltac solve_silent :=
  repeat first
    [ apply silent_ret | apply silent_alloc | by apply silent_perform
    | apply silent_call | apply silent_lift | apply silent_throw
    | apply silent_bind; [|intros ?]
    | match goal with |- silent (if ?b then _ else _) => destruct b end
    | match goal with |- silent (match ?v with _ => _ end) => destruct v end ].

Lemma silent_configureLogging config : silent (configureLogging config).
Proof. unfold configureLogging, log. solve_silent. Qed.

(** A value with one readable property has every property readable. *)
Lemma get_total v k x k' : get v k = Ok x → ∃ y, get v k' = Ok y.
Proof.
  destruct v; simpl; try discriminate; intros _; eauto.
  - destruct (String.eqb k' "length"); eauto.
  - destruct (String.eqb k' "length"); eauto.
Qed.

Lemma configureLogging_succeeds config k x s :
  get config k = Ok x → ∃ s', configureLogging config s = (Ok tt, s').
Proof.
  intros Hget. unfold configureLogging.
  destruct (get_total _ _ _ "logLevel" Hget) as [logLevel ->].
  destruct (get_total _ _ _ "logFile" Hget) as [logFile HlogFile].
  destruct (get_total _ _ _ "logFileLevel" Hget) as [logFileLevel Hlevel].
  run. rewrite HlogFile. simpl.
  destruct (truthy logFile); simpl; [rewrite Hlevel|]; by eexists.
Qed.

Section PipelineProperties.

Context (defaultsParser_getConfig : reply)
        (fileParser_getConfig cliParser_getConfig envParser_getConfig
           resolveConfigPresets : value → reply)
        (githubApi_getRepos gitlabApi_getRepos vstsApi_getRepos
           : value → value → reply).

Local Abbreviation loadConfig' :=
  (loadConfig defaultsParser_getConfig fileParser_getConfig
     cliParser_getConfig envParser_getConfig resolveConfigPresets).
Local Abbreviation discover' :=
  (discover githubApi_getRepos gitlabApi_getRepos vstsApi_getRepos).
Local Abbreviation finishConfig' := (finishConfig resolveConfigPresets).
Local Abbreviation discoverAndFinish' :=
  (discoverAndFinish resolveConfigPresets githubApi_getRepos
     gitlabApi_getRepos vstsApi_getRepos).
Local Abbreviation parseConfigs' :=
  (parseConfigs defaultsParser_getConfig fileParser_getConfig
     cliParser_getConfig envParser_getConfig resolveConfigPresets
     githubApi_getRepos gitlabApi_getRepos vstsApi_getRepos).

Lemma quiet_loadConfig env argv : quiet (loadConfig' env argv).
Proof. unfold loadConfig, log. solve_quiet. Qed.

Lemma silent_loadConfig env argv : silent (loadConfig' env argv).
Proof. unfold loadConfig, log. solve_silent. Qed.

Lemma quiet_discover config : quiet (discover' config).
Proof. unfold discover, listRepos, platformIs, log. solve_quiet. Qed.

Lemma quiet_resolveRepository repo :
  quiet (resolveRepository resolveConfigPresets repo).
Proof. unfold resolveRepository. solve_quiet. Qed.

Lemma quiet_finishConfig config : quiet (finishConfig' config).
Proof.
  unfold finishConfig, log.
  apply quiet_bind; [apply quiet_lift, get_error|]. intros repositories.
  apply quiet_bind; [|intros ?; solve_quiet].
  destruct repositories as [| | | | |la [|x xs]|]; try apply quiet_ret.
  apply quiet_bind; [|intros ?; solve_quiet].
  apply quiet_mapM, quiet_resolveRepository.
Qed.

(** After the platform check no fatal error is thrown. *)
Lemma quiet_discoverAndFinish config : quiet (discoverAndFinish' config).
Proof.
  unfold discoverAndFinish.
  apply quiet_bind; [apply quiet_lift, get_error|]. intros autodiscover.
  destruct (truthy autodiscover); [|apply quiet_finishConfig].
  apply quiet_bind; [apply quiet_discover|]. intros discovered.
  destruct (negb _).
  - apply quiet_bind; [|intros ?; apply quiet_finishConfig].
    apply quiet_foldM. apply quiet_addDiscovered.
  - unfold log. solve_quiet.
Qed.

(** C3. [parseConfigs] throws one of its fatal configuration errors
    exactly when the configuration it resolved names a platform outside
    github, gitlab and vsts, or names one of them while neither
    [config.token] nor that platform's environment variable
    ([GITHUB_TOKEN], [GITLAB_TOKEN], [VSTS_TOKEN]) holds a credential;
    and when it throws one, no repository-listing call has been made. *)
Theorem parseConfigs_fatal_iff_invalid_platform (env argv : value)
    (s : state) :
  ((∃ e s', parseConfigs' env argv s = (Throw e, s') ∧ isFatal e = true)
   ↔ ∃ config s1, loadConfig' env argv s = (Ok config, s1)
                  ∧ invalidPlatform config env)
  ∧ (∀ e s', parseConfigs' env argv s = (Throw e, s') →
             isFatal e = true → listingCalls s' = listingCalls s).
Proof.
  assert (Hthrow : ∀ e s',
    parseConfigs' env argv s = (Throw e, s') → isFatal e = true →
    ∃ config s1 s2,
      loadConfig' env argv s = (Ok config, s1) ∧
      configureLogging config s1 = (Ok tt, s2) ∧
      checkPlatform config env s2 = (Throw e, s')).
  { intros e s' Hrun Hfatal. unfold parseConfigs in Hrun.
    apply bind_inv in Hrun as [(e' & Hload & [= <-])|(config & s1 & Hload & Hrun)].
    { apply quiet_loadConfig in Hload. congruence. }
    apply bind_inv in Hrun as [(e' & Hlog & [= <-])|([] & s2 & Hlog & Hrun)].
    { apply quiet_configureLogging in Hlog. congruence. }
    apply bind_inv in Hrun as [(e' & Hcheck & [= <-])|([] & s3 & Hcheck & Hrun)].
    { by exists config, s1, s2. }
    apply quiet_discoverAndFinish in Hrun. congruence. }
  split; [split|].
  - intros (e & s' & Hrun & Hfatal).
    destruct (Hthrow e s' Hrun Hfatal)
      as (config & s1 & s2 & Hload & Hlog & Hcheck).
    exists config, s1. split; [done|].
    apply (checkPlatform_fatal config env s2). eauto.
  - intros (config & s1 & Hload & Hinvalid).
    destruct Hinvalid as (pf & Hpf & Hcases).
    destruct (configureLogging_succeeds config _ _ s1 Hpf) as [s2 Hlog].
    assert (Hinvalid : invalidPlatform config env) by (exists pf; eauto).
    apply (checkPlatform_fatal config env s2) in Hinvalid
      as (e & s' & Hcheck & Hfatal).
    exists e, s'. split; [|done]. unfold parseConfigs.
    rewrite (bind_Ok _ _ _ _ _ Hload), (bind_Ok _ _ _ _ _ Hlog).
    by rewrite (bind_Throw _ _ _ _ _ Hcheck).
  - intros e s' Hrun Hfatal.
    destruct (Hthrow e s' Hrun Hfatal)
      as (config & s1 & s2 & Hload & Hlog & Hcheck).
    apply checkPlatform_state in Hcheck as ->.
    rewrite (silent_configureLogging _ _ _ _ Hlog).
    by rewrite (silent_loadConfig _ _ _ _ _ Hload).
Qed.

(** C1. In [parseConfigs] the object handed to the preset resolver is
    [{...defaultConfig, ...fileConfig, ...cliConfig, ...envConfig}]: its
    value for a key is the value of the highest-precedence source that
    defines the key, environment over CLI over file over defaults, key by
    key. *)
Theorem parseConfigs_source_precedence (env argv : value) (s : state)
    (defaultConfig fileConfig cliConfig envConfig : value) :
  defaultsParser_getConfig = Reply defaultConfig →
  fileParser_getConfig env = Reply fileConfig →
  cliParser_getConfig argv = Reply cliConfig →
  envParser_getConfig env = Reply envConfig →
  ∃ merged s1,
    loadConfig' env argv s
      = call (resolveConfigPresets (VObj (next_loc s) merged)) s1 ∧
    ∀ k, merged !! k =
      match ownProps envConfig !! k with
      | Some v => Some v
      | None =>
          match ownProps cliConfig !! k with
          | Some v => Some v
          | None =>
              match ownProps fileConfig !! k with
              | Some v => Some v
              | None => ownProps defaultConfig !! k
              end
          end
      end.
Proof.
  intros Hd Hf Hc He.
  exists (mergeSources defaultConfig fileConfig cliConfig envConfig).
  eexists. split; [|apply mergeSources_lookup].
  unfold loadConfig. rewrite Hd, Hf, Hc, He. run. reflexivity.
Qed.

(** ** Autodiscovery *)

(** The listing of a valid platform that answers with no repository. *)
Lemma discover_nothing config env p s :
  validPlatform config env p →
  (∀ token endpoint,
     get config "token" = Ok token → get config "endpoint" = Ok endpoint →
     ∃ repos, api_getRepos githubApi_getRepos gitlabApi_getRepos
                vstsApi_getRepos p token endpoint = Reply repos
              ∧ iterate repos = Ok []) →
  ∃ s', discover' config s = (Ok [], s').
Proof.
  intros (pf & token & Hpf & Hsup & Htoken & _) Hrepos.
  apply supportedPlatform_name in Hsup as ->.
  destruct (get_total _ _ _ "endpoint" Hpf) as [endpoint Hendpoint].
  destruct (Hrepos token endpoint Htoken Hendpoint) as (repos & Hcall & Hiter).
  unfold discover, listRepos, platformIs. run. rewrite Hpf. simpl.
  destruct p; simpl in *; rewrite Htoken, Hendpoint; simpl;
    rewrite Hcall; simpl; rewrite Hiter; by eexists.
Qed.

(** C5. When the resolved configuration passes the platform check, asks
    for autodiscovery, and the platform's listing answers with no
    repository, [parseConfigs] does not throw: it returns the resolved
    configuration itself, so its [repositories] are as they were. *)
Theorem parseConfigs_nothing_discovered (env argv : value) (s s1 : state)
    (config : value) (p : platform) (autodiscover : value) :
  loadConfig' env argv s = (Ok config, s1) →
  validPlatform config env p →
  get config "autodiscover" = Ok autodiscover → truthy autodiscover = true →
  (∀ token endpoint,
     get config "token" = Ok token → get config "endpoint" = Ok endpoint →
     ∃ repos, api_getRepos githubApi_getRepos gitlabApi_getRepos
                vstsApi_getRepos p token endpoint = Reply repos
              ∧ iterate repos = Ok []) →
  ∃ s', parseConfigs' env argv s = (Ok config, s').
Proof.
  intros Hload Hvalid Hauto Htruthy Hrepos.
  destruct (configureLogging_succeeds config _ _ s1 Hauto) as [s2 Hlog].
  destruct (discover_nothing config env p s2 Hvalid Hrepos) as [s3 Hdiscover].
  unfold parseConfigs, discoverAndFinish.
  rewrite (bind_Ok _ _ _ _ _ Hload), (bind_Ok _ _ _ _ _ Hlog).
  rewrite (bind_Ok _ _ _ _ _ (checkPlatform_valid _ _ s2 _ Hvalid)).
  rewrite (bind_Ok (lift (get config "autodiscover")) _ s2 autodiscover s2)
    by (unfold lift; by rewrite Hauto).
  rewrite Htruthy. rewrite (bind_Ok _ _ _ _ _ Hdiscover). simpl.
  run. by eexists.
Qed.

End PipelineProperties.

(** ** Deduplication of discovered repositories *)

Lemma strictEq_truthy a b : strictEq a b = true → truthy a = truthy b.
Proof.
  destruct a, b; simpl; try done.
  - by intros ->%Bool.eqb_prop.
  - by intros ->%Z.eqb_eq.
  - by intros ->%String.eqb_eq.
Qed.

Lemma repoName_named repo : nullish repo = false → ∃ n, repoName repo = Ok n.
Proof.
  unfold repoName, hasOwnProperty, get.
  destruct repo; try done; intros _; repeat case_match; eauto.
Qed.

(** An entry with a non-empty identifier is itself non-empty. *)
Lemma repoName_truthy repo n :
  repoName repo = Ok n → truthy n = true → truthy repo = true.
Proof.
  unfold repoName. destruct repo; simpl; try done.
  - by intros [= <-].
  - by intros [= <-].
  - destruct s; [|done]. simpl. by intros [= <-].
Qed.

(** The search of [addDiscovered], on a list of entries with names. *)
Lemma find_sameIdentifier xs repo n :
  repoName repo = Ok n → truthy n = true →
  Forall (λ r, nullish r = false) xs →
  ∃ found,
    find (λ r, match repoName r with
               | Ok m => Ok (strictEq m n)
               | Throw e => Throw e
               end) xs = Ok found ∧
    truthy found = existsb (λ r, sameIdentifier r repo) xs.
Proof.
  intros Hrepo Hn. induction 1 as [|r xs Hr _ IH]; simpl.
  - by exists VUndefined.
  - destruct (repoName_named r Hr) as [m Hm].
    unfold sameIdentifier at 1. rewrite Hm, Hrepo.
    destruct (strictEq m n) eqn:E; simpl; [|done].
    exists r. split; [done|]. apply (repoName_truthy r m Hm).
    by rewrite (strictEq_truthy _ _ E).
Qed.

(** One discovered entry: the list is kept, or grows by the entry. *)
Lemma addDiscovered_run l fs la xs repo s :
  fs !! "repositories" = Some (VArr la xs) →
  Forall (λ r, nullish r = false) xs → nullish repo = false →
  ∃ s', addDiscovered (VObj l fs) repo s =
    (Ok (VObj l (<["repositories" :=
                    VArr la (if alreadyListed xs repo then xs
                             else (xs ++ [repo])%list)]> fs)), s').
Proof.
  intros Hfs Hxs Hrepo. unfold addDiscovered, alreadyListed, pushRepository.
  destruct (repoName_named repo Hrepo) as [n Hn]. rewrite Hn. run.
  rewrite Hfs. simpl.
  destruct (truthy n) eqn:Htruthy; simpl.
  - destruct (find_sameIdentifier xs repo n Hn Htruthy Hxs)
      as (found & -> & ->).
    destruct (existsb _ xs); simpl; [|by eexists].
    rewrite insert_id by done. by eexists.
  - rewrite Htruthy. by eexists.
Qed.

(** The loop over the discovered repositories computes
    [mergeDiscovered]. *)
Lemma foldM_addDiscovered_run l fs la xs discovered s :
  fs !! "repositories" = Some (VArr la xs) →
  Forall (λ r, nullish r = false) xs →
  Forall (λ r, nullish r = false) discovered →
  ∃ s', foldM addDiscovered (VObj l fs) discovered s =
    (Ok (VObj l (<["repositories" :=
                    VArr la (mergeDiscovered xs discovered)]> fs)), s').
Proof.
  intros Hfs Hxs Hd. revert fs xs s Hfs Hxs.
  induction Hd as [|repo discovered Hrepo Hd IH]; intros fs xs s Hfs Hxs.
  - simpl. rewrite insert_id by done. by eexists.
  - cbn [foldM].
    destruct (addDiscovered_run l fs la xs repo s Hfs Hxs Hrepo)
      as [s1 Hstep].
    rewrite (bind_Ok _ _ _ _ _ Hstep).
    set (xs1 := if alreadyListed xs repo then xs else (xs ++ [repo])%list).
    destruct (IH (<["repositories" := VArr la xs1]> fs) xs1 s1)
      as [s' Hrest].
    { apply lookup_insert_eq. }
    { unfold xs1. destruct (alreadyListed xs repo); [done|].
      apply Forall_app. by split; [|constructor]. }
    exists s'. rewrite Hrest. by rewrite insert_insert_eq.
Qed.

(** C4, as the code has it.  Autodiscovery visits the discovered
    repositories in order.  An entry whose identifier (its [repository]
    property if it has one, else the entry itself) is non-empty and [===]
    the identifier of an entry of the list as it stands (configured, or
    appended before) leaves the list as it is; any other entry, also one
    with an empty identifier, is appended as it is.  In particular, with
    the configured repository [{repository: "org/repo", extends:
    [":base"]}] and the discovered entry ["org/repo"], the list keeps its
    one entry, the configured one. *)
Theorem addDiscovered_deduplicates (l : loc) (fs : fields) (la : loc)
    (xs discovered : list value) (s : state) :
  fs !! "repositories" = Some (VArr la xs) →
  Forall (λ r, nullish r = false) xs →
  Forall (λ r, nullish r = false) discovered →
  (∃ s', foldM addDiscovered (VObj l fs) discovered s =
     (Ok (VObj l (<["repositories" :=
                     VArr la (mergeDiscovered xs discovered)]> fs)), s'))
  ∧ (∃ s', foldM addDiscovered
             (VObj l {["repositories" := VArr la [configuredRepo]]})
             [VStr "org/repo"] s =
       (Ok (VObj l {["repositories" := VArr la [configuredRepo]]}), s')).
Proof.
  intros Hfs Hxs Hd. split; [by apply foldM_addDiscovered_run|].
  destruct (foldM_addDiscovered_run l
              {["repositories" := VArr la [configuredRepo]]} la
              [configuredRepo] [VStr "org/repo"] s) as [s' Hrun].
  - apply lookup_singleton_eq.
  - by repeat constructor.
  - by repeat constructor.
  - exists s'. rewrite Hrun.
    change (mergeDiscovered [configuredRepo] [VStr "org/repo"])
      with [configuredRepo].
    by rewrite insert_singleton_eq.
Qed.

(** C4 as stated fails: the configured list holds the entry with the
    empty identifier, the discovered entry has the same identifier, and
    the discovered entry is appended all the same, where the
    specification keeps the list at its one entry. *)
Lemma addDiscovered_appends_empty_identifier :
  sameIdentifier (VStr EmptyString) (VStr EmptyString) = true ∧
  mergeDiscoveredSpec [VStr EmptyString] [VStr EmptyString]
    = [VStr EmptyString] ∧
  ∃ result s',
    foldM addDiscovered emptyNameConfig [VStr EmptyString] initial
      = (Ok result, s') ∧
    get result "repositories"
      = Ok (VArr 2 [VStr EmptyString; VStr EmptyString]).
Proof.
  split; [reflexivity|]. split; [reflexivity|].
  eexists _, _. split; [vm_compute; reflexivity | reflexivity].
Qed.

Lemma addDiscovered_deduplicates_witness :
  ∃ s', foldM addDiscovered
          (object 1 [("repositories", VArr 2 [configuredRepo])])
          [VStr "org/repo"; VStr "org/other"] initial =
    (Ok (VObj 1 (<["repositories" :=
                    VArr 2 [configuredRepo; VStr "org/other"]]>
                   (list_to_map
                      [("repositories", VArr 2 [configuredRepo])]))), s').
Proof.
  apply (addDiscovered_deduplicates 1
           (list_to_map [("repositories", VArr 2 [configuredRepo])]) 2
           [configuredRepo] [VStr "org/repo"; VStr "org/other"] initial).
  - reflexivity.
  - repeat constructor.
  - repeat constructor.
Defined.

(** ** Transient logging keys *)

Section FinishConfig.

Context (resolveConfigPresets : value → reply).

(** The regular end of [parseConfigs] removes both keys. *)
Lemma finishConfig_strips_log_keys l fs s result s' :
  finishConfig resolveConfigPresets (VObj l fs) s = (Ok result, s') →
  ∃ fs', result = VObj l fs' ∧
         fs' !! "logFile" = None ∧ fs' !! "logFileLevel" = None.
Proof.
  unfold finishConfig. intros Hrun.
  apply bind_inv_Ok in Hrun as (repositories & s1 & _ & Hrun).
  apply bind_inv_Ok in Hrun as (config & s2 & Hconfig & Hrun).
  assert (∃ fs0, config = VObj l fs0) as [fs0 ->].
  { destruct repositories as [| | | | |la [|x xs]|].
    all: try (inversion Hconfig; by eexists).
    apply bind_inv_Ok in Hconfig as (resolved & s3 & _ & Hconfig).
    inversion Hconfig. by eexists. }
  apply bind_inv_Ok in Hrun as ([] & s3 & _ & Hrun).
  simpl in Hrun. inversion Hrun. eexists. split; [done|].
  split.
  - rewrite lookup_delete_ne by done. apply lookup_delete_eq.
  - apply lookup_delete_eq.
Qed.

End FinishConfig.

(** C2, where the code departs from it.  With a log file configured,
    autodiscovery requested and no repository discovered, [parseConfigs]
    returns a configuration that still has [logFile] and [logFileLevel]:
    the early return skips the removal. *)
Theorem parseConfigs_keeps_log_keys_when_nothing_discovered :
  ∃ result s',
    parseSample noRepos initial = (Ok result, s') ∧
    get result "logFile" = Ok (VStr "renovate.log") ∧
    get result "logFileLevel" = Ok (VStr "debug").
Proof.
  eexists _, _. split; [vm_compute; reflexivity|]. split; reflexivity.
Qed.

(** The same sources with one repository discovered: the keys are
    removed. *)
Lemma parseConfigs_strips_log_keys_when_discovered :
  ∃ result s',
    parseSample oneRepo initial = (Ok result, s') ∧
    hasOwnProperty result "logFile" = Ok false ∧
    hasOwnProperty result "logFileLevel" = Ok false ∧
    get result "repositories" = Ok (VArr 102 [VStr "org/repo"]).
Proof.
  eexists _, _. split; [vm_compute; reflexivity|]. repeat split; reflexivity.
Qed.

Lemma parseConfigs_nothing_discovered_witness :
  validPlatform resolvedSample (object 6 []) Github ∧
  ∃ s', parseSample noRepos initial = (Ok resolvedSample, s').
Proof.
  assert (Hvalid : validPlatform resolvedSample (object 6 []) Github).
  { exists (VStr "github"), (VStr "abc"). repeat split; try reflexivity.
    by left. }
  split; [done|].
  apply (parseConfigs_nothing_discovered _ _ _ _ _ _ _ _ _ _
           initial (mkState 101 [Log "debug" "Parsing configs"])
           resolvedSample Github (VBool true)).
  - reflexivity.
  - exact Hvalid.
  - reflexivity.
  - reflexivity.
  - intros token endpoint _ _. exists (VArr 9 []). by split.
Defined.

Lemma parseConfigs_fatal_iff_invalid_platform_witness :
  ∃ e s',
    parseConfigs (Reply defaultsSample) (λ _, Reply bitbucketSample)
      (λ _, Reply (object 4 [])) (λ _, Reply (object 5 []))
      noPresets noRepos noRepos noRepos (object 6 []) (VArr 7 []) initial
      = (Throw e, s')
    ∧ isFatal e = true.
Proof.
  apply (parseConfigs_fatal_iff_invalid_platform (Reply defaultsSample)
           (λ _, Reply bitbucketSample)
           (λ _, Reply (object 4 [])) (λ _, Reply (object 5 []))
           noPresets noRepos noRepos noRepos (object 6 []) (VArr 7 [])
           initial).
  eexists _, _. split; [vm_compute; reflexivity|].
  exists (VStr "bitbucket"). split; [reflexivity|]. by left.
Defined.

Lemma parseConfigs_source_precedence_witness :
  ∃ merged s1,
    loadConfig (Reply defaultsSample) (λ _, Reply fileSample)
      (λ _, Reply (object 4 [("logLevel", VStr "debug")]))
      (λ _, Reply (object 5 [("token", VStr "xyz")]))
      noPresets (object 6 []) (VArr 7 []) initial
      = call (noPresets (VObj 100 merged)) s1 ∧
    merged !! "token" = Some (VStr "xyz") ∧
    merged !! "logLevel" = Some (VStr "debug") ∧
    merged !! "platform" = Some (VStr "github") ∧
    merged !! "logFileLevel" = Some (VStr "debug").
Proof.
  destruct (parseConfigs_source_precedence (Reply defaultsSample)
              (λ _, Reply fileSample)
              (λ _, Reply (object 4 [("logLevel", VStr "debug")]))
              (λ _, Reply (object 5 [("token", VStr "xyz")]))
              noPresets (object 6 []) (VArr 7 []) initial
              defaultsSample fileSample
              (object 4 [("logLevel", VStr "debug")])
              (object 5 [("token", VStr "xyz")])
              eq_refl eq_refl eq_refl eq_refl)
    as (merged & s1 & Hload & Hmerged).
  exists merged, s1. split; [exact Hload|].
  rewrite !Hmerged. repeat split; reflexivity.
Defined.

Lemma mergeChildConfig_mergeable_witness :
  ∃ result s' l,
    mergeChildConfig sampleOptions (VObj 1 parentSample) (VObj 4 childSample)
      initial = (Ok result, s') ∧
    get result "labels"
      = Ok (VArr l [VStr "deps"; VStr "renovate"; VStr "renovate";
                    VStr "child"]).
Proof.
  destruct (mergeChildConfig_mergeable sampleOptions 1 4 parentSample
              childSample initial
              (mkOption "labels" "list" VUndefined true)
              (VArr 2 [VStr "deps"; VStr "renovate"])
              (VArr 5 [VStr "renovate"; VStr "child"]))
    as [Hreturns Hresult].
  - apply (bool_decide_unpack _). by vm_compute.
  - elem_of_list.
  - reflexivity.
  - reflexivity.
  - reflexivity.
  - reflexivity.
  - reflexivity.
  - destruct Hreturns as (result & s' & Hrun).
    { intros o v Ho Hm Ht. unfold sampleOptions in Ho.
      repeat (apply elem_of_cons in Ho as [->|Ho];
              [first [discriminate Hm | discriminate Ht
                     | by vm_compute; intros [= <-]]|]).
      by apply elem_of_nil in Ho. }
    destruct (Hresult result s' Hrun) as (Hlist & _ & _).
    destruct (Hlist eq_refl 2 [VStr "deps"; VStr "renovate"] 5
                [VStr "renovate"; VStr "child"] eq_refl eq_refl) as [l Hl].
    by exists result, s', l.
Defined.

(** * Further properties *)

(** ** Index keys *)

Lemma pretty_N_char_digit x : isDigit (pretty_N_char x) = true.
Proof. unfold pretty_N_char. by repeat case_match. Qed.

Lemma pretty_N_go_numeral x s : numeral s = true → numeral (pretty_N_go x s) = true.
Proof.
  revert s. induction (N.lt_wf_0 x) as [x _ IH]; intros s Hs.
  destruct (decide (x = 0)%N) as [->|Hx]; [by rewrite pretty_N_go_0|].
  rewrite pretty_N_go_step by lia. apply IH.
  - apply N.div_lt; lia.
  - simpl. by rewrite pretty_N_char_digit.
Qed.

Lemma pretty_nat_numeral (i : nat) : numeral (pretty i) = true.
Proof.
  unfold pretty, pretty_nat, pretty, pretty_N.
  case_decide; [done|]. by apply pretty_N_go_numeral.
Qed.

(** The keys of the indexed properties are numerals. *)
Lemma indexed_numeral xs k : is_Some (indexed xs !! k) → numeral k = true.
Proof.
  unfold indexed. intros [v Hv].
  apply elem_of_list_to_map_2 in Hv.
  apply elem_of_lookup_imap_1 in Hv as (i & x & [= -> ->] & _).
  apply pretty_nat_numeral.
Qed.

Lemma indexed_not_numeral xs k : numeral k = false → indexed xs !! k = None.
Proof.
  intros Hk. apply eq_None_not_Some. intros Hsome.
  apply indexed_numeral in Hsome. congruence.
Qed.

(** ** repoName *)

(** The identifier of a repository entry: [undefined] and [null] have
    none ([TypeError]); an object with an own [repository] property has
    the value of that property, whatever it is; every other entry (a
    bare string, a number, a boolean, an array, an object without the
    property) is its own identifier. *)
Theorem repoName_cases (repo : value) :
  match repo with
  | VUndefined | VNull => repoName repo = Throw TypeError
  | VObj _ fs => repoName repo = Ok (default repo (fs !! "repository"))
  | _ => repoName repo = Ok repo
  end.
Proof.
  unfold repoName. destruct repo; simpl; try done.
  - by rewrite (indexed_not_numeral (chars s) "repository").
  - by rewrite (indexed_not_numeral xs "repository").
  - by destruct (fs !! "repository").
Qed.

(** ** Stage filter: inclusion and composition *)

Lemma fold_filterOption_cases targetStage options out k :
  (fold_left (filterOption (indexOf stages targetStage)) options out !! k
     = None ∧
   (out !! k = None ∨
    ∃ o, o ∈ options ∧ name o = k ∧ stagedBefore o targetStage))
  ∨
  (fold_left (filterOption (indexOf stages targetStage)) options out !! k
     = out !! k ∧
   ∀ o, o ∈ options → name o = k → ¬ stagedBefore o targetStage).
Proof.
  destruct (fold_filterOption_lookup (indexOf stages targetStage) options
              out k) as [Hnone|Hsame].
  - left. split; [done|]. by apply fold_filterOption_None.
  - destruct (out !! k) as [x|] eqn:Hout.
    + right. split; [done|]. intros o Ho Hname Hbefore.
      assert (Hgone : fold_left (filterOption (indexOf stages targetStage))
                        options out !! k = None).
      { apply fold_filterOption_None. right. by exists o. }
      congruence.
    + left. split; [done|]. by left.
Qed.

Lemma stagedBefore_mono o t1 t2 :
  (indexOf stages t1 ≤ indexOf stages t2)%Z →
  stagedBefore o t1 → stagedBefore o t2.
Proof. intros Hle [Hne Hlt]. split; [done|lia]. Qed.

Lemma fold_filterOption_later t1 t2 options out :
  (indexOf stages t1 ≤ indexOf stages t2)%Z →
  fold_left (filterOption (indexOf stages t2)) options
    (fold_left (filterOption (indexOf stages t1)) options out)
  = fold_left (filterOption (indexOf stages t2)) options out.
Proof.
  intros Hle. apply map_eq. intros k.
  destruct (fold_filterOption_cases t2 options out k)
    as [[Hnone Hwhy]|[Hsame Hkeep]].
  - rewrite Hnone. apply fold_filterOption_None.
    destruct Hwhy as [Hout|Hstaged]; [|by right].
    left. apply fold_filterOption_None. by left.
  - rewrite Hsame, fold_filterOption_retained by done.
    apply fold_filterOption_retained.
    intros o Ho Hname Hbefore. apply (Hkeep o Ho Hname).
    by eapply stagedBefore_mono.
Qed.

Lemma fold_filterOption_earlier t1 t2 options out :
  (indexOf stages t1 ≤ indexOf stages t2)%Z →
  fold_left (filterOption (indexOf stages t1)) options
    (fold_left (filterOption (indexOf stages t2)) options out)
  = fold_left (filterOption (indexOf stages t2)) options out.
Proof.
  intros Hle. apply map_eq. intros k.
  destruct (fold_filterOption_cases t2 options out k)
    as [[Hnone Hwhy]|[Hsame Hkeep]].
  - rewrite Hnone. apply fold_filterOption_None. by left.
  - apply fold_filterOption_retained.
    intros o Ho Hname Hbefore. apply (Hkeep o Ho Hname).
    by eapply stagedBefore_mono.
Qed.

Lemma fold_filterOption_subseteq targetIndex options out :
  fold_left (filterOption targetIndex) options out ⊆ out.
Proof.
  apply map_subseteq_spec. intros k x Hk.
  destruct (fold_filterOption_lookup targetIndex options out k); congruence.
Qed.

Lemma returnedProps_filterConfig options inputConfig targetStage s :
  returnedProps (filterConfig options inputConfig targetStage) s =
    Some (fold_left (filterOption (indexOf stages targetStage)) options
            (ownProps inputConfig)).
Proof. unfold returnedProps. by rewrite filterConfig_run. Qed.

Lemma returnedProps_filterConfig_twice options inputConfig t1 t2 s :
  returnedProps (mid ← filterConfig options inputConfig t1;
                 filterConfig options mid t2) s =
    Some (fold_left (filterOption (indexOf stages t2)) options
            (fold_left (filterOption (indexOf stages t1)) options
               (ownProps inputConfig))).
Proof.
  unfold returnedProps.
  rewrite (bind_Ok _ _ _ _ _ (filterConfig_run options inputConfig t1 s)).
  by rewrite filterConfig_run.
Qed.

(** [filterConfig] never throws, never adds a key and never changes a
    value: what it returns is a part of the own properties of its
    input. *)
Theorem filterConfig_returns_part_of_input
    (options : list optionDef) (inputConfig targetStage : value) (s : state) :
  ∃ output, returnedProps (filterConfig options inputConfig targetStage) s
              = Some output
            ∧ output ⊆ ownProps inputConfig.
Proof.
  eexists. split; [apply returnedProps_filterConfig|].
  apply fold_filterOption_subseteq.
Qed.

(** Filtering twice, in either order, is filtering once to the later of
    the two stages; in particular filtering is idempotent. *)
Theorem filterConfig_twice
    (options : list optionDef) (inputConfig t1 t2 : value) (s : state) :
  (indexOf stages t1 ≤ indexOf stages t2)%Z →
  returnedProps (mid ← filterConfig options inputConfig t1;
                 filterConfig options mid t2) s
    = returnedProps (filterConfig options inputConfig t2) s
  ∧ returnedProps (mid ← filterConfig options inputConfig t2;
                   filterConfig options mid t1) s
    = returnedProps (filterConfig options inputConfig t2) s.
Proof.
  intros Hle.
  rewrite !returnedProps_filterConfig_twice, returnedProps_filterConfig.
  by rewrite fold_filterOption_later, fold_filterOption_earlier.
Qed.

Lemma filterConfig_twice_witness :
  (indexOf stages (VStr "package") ≤ indexOf stages (VStr "pr"))%Z ∧
  returnedProps (mid ← filterConfig sampleOptions stagedConfig
                         (VStr "package");
                 filterConfig sampleOptions mid (VStr "pr")) initial
    = returnedProps (filterConfig sampleOptions stagedConfig (VStr "pr"))
        initial.
Proof.
  assert (H : (indexOf stages (VStr "package")
               ≤ indexOf stages (VStr "pr"))%Z) by by vm_compute.
  split; [exact H|].
  apply (filterConfig_twice sampleOptions stagedConfig (VStr "package")
           (VStr "pr") initial H).
Defined.

(** A later target stage keeps a part of what an earlier one keeps. *)
Theorem filterConfig_later_keeps_less
    (options : list optionDef) (inputConfig t1 t2 : value) (s : state) :
  (indexOf stages t1 ≤ indexOf stages t2)%Z →
  ∃ earlier later,
    returnedProps (filterConfig options inputConfig t1) s = Some earlier ∧
    returnedProps (filterConfig options inputConfig t2) s = Some later ∧
    later ⊆ earlier.
Proof.
  intros Hle. eexists _, _.
  split; [apply returnedProps_filterConfig|].
  split; [apply returnedProps_filterConfig|].
  rewrite <- (fold_filterOption_later t1 t2) by done.
  apply fold_filterOption_subseteq.
Qed.

Lemma filterConfig_later_keeps_less_witness :
  ∃ earlier later,
    returnedProps (filterConfig sampleOptions stagedConfig (VStr "depType"))
      initial = Some earlier ∧
    returnedProps (filterConfig sampleOptions stagedConfig (VStr "branch"))
      initial = Some later ∧
    later ⊆ earlier.
Proof.
  apply (filterConfig_later_keeps_less sampleOptions stagedConfig
           (VStr "depType") (VStr "branch") initial).
  by vm_compute.
Defined.

(** Filtering to [global], the first stage, removes nothing. *)
Theorem filterConfig_global_keeps_all
    (options : list optionDef) (inputConfig : value) (s : state) :
  returnedProps (filterConfig options inputConfig (VStr "global")) s
    = Some (ownProps inputConfig).
Proof.
  rewrite returnedProps_filterConfig. f_equal.
  apply map_eq. intros k. apply fold_filterOption_retained.
  intros o _ _ [Hne Hlt].
  change (indexOf stages (VStr "global")) with 0%Z in Hlt.
  pose proof (indexOf_ge stages (stage o)). lia.
Qed.

(** ** Config merger: keys, plain options and failures *)

Lemma typeErrorsOnly_bind {A B} (m : M A) (k : A → M B) :
  typeErrorsOnly m → (∀ a, typeErrorsOnly (k a)) → typeErrorsOnly (m ≫= k).
Proof.
  intros Hm Hk s e s' Hrun.
  apply bind_inv in Hrun as [(e' & Hrun & [= <-])|(a & s1 & _ & Hrun)].
  - by eapply Hm.
  - by eapply Hk.
Qed.

Lemma typeErrorsOnly_ret {A} (a : A) : typeErrorsOnly (mret a).
Proof. intros s e s'. by unfold mret, M_ret, ret. Qed.

Lemma typeErrorsOnly_lift {A} (r : result A) :
  (∀ e, r = Throw e → e = TypeError) → typeErrorsOnly (lift r).
Proof. intros Hr s e s'. unfold lift. intros [= -> <-]. by apply Hr. Qed.

Lemma typeErrorsOnly_alloc : typeErrorsOnly alloc.
Proof. by intros s e s'. Qed.

Lemma typeErrorsOnly_perform e : typeErrorsOnly (perform e).
Proof. by intros s e' s'. Qed.

Lemma typeErrorsOnly_throw {A} : typeErrorsOnly (@throw A TypeError).
Proof. intros s e s'. unfold throw. by intros [= <- <-]. Qed.

Lemma typeErrorsOnly_foldM {A B} (f : A → B → M A) xs a :
  (∀ a x, typeErrorsOnly (f a x)) → typeErrorsOnly (foldM f a xs).
Proof.
  intros Hf. revert a. induction xs as [|x xs IH]; intros a; simpl.
  - apply typeErrorsOnly_ret.
  - apply typeErrorsOnly_bind; [apply Hf | apply IH].
Qed.

Ltac solve_typeErrorsOnly :=
  repeat first
    [ apply typeErrorsOnly_ret | apply typeErrorsOnly_alloc
    | apply typeErrorsOnly_perform | apply typeErrorsOnly_throw
    | apply typeErrorsOnly_lift; first
        [ apply get_error | apply repoName_error | apply iterate_error
        | apply deleteProp_error ]
    | apply typeErrorsOnly_bind; [|intros ?]
    | match goal with
      | |- typeErrorsOnly (if ?b then _ else _) => destruct b
      end
    | match goal with
      | |- typeErrorsOnly (match ?v with _ => _ end) => destruct v
      end ].

Lemma typeErrorsOnly_mergeOption parentConfig childConfig config o :
  typeErrorsOnly (mergeOption parentConfig childConfig config o).
Proof. unfold mergeOption, orEmptyArray, concat, log. solve_typeErrorsOnly. Qed.

(** The only failure of [mergeChildConfig] is a [TypeError]. *)
Lemma typeErrorsOnly_mergeChildConfig options parentConfig childConfig :
  typeErrorsOnly (mergeChildConfig options parentConfig childConfig).
Proof.
  unfold mergeChildConfig, log.
  apply typeErrorsOnly_bind; [apply typeErrorsOnly_perform|]. intros _.
  destruct (negb _); [apply typeErrorsOnly_ret|].
  apply typeErrorsOnly_bind; [apply typeErrorsOnly_alloc|]. intros l.
  apply typeErrorsOnly_bind; [|intros ?; apply typeErrorsOnly_ret].
  apply typeErrorsOnly_foldM. intros a x. apply typeErrorsOnly_mergeOption.
Qed.

(** The loop throws as soon as the body throws on one option whatever
    the object under construction is. *)
Lemma foldM_mergeOption_throws parentConfig childConfig options o :
  o ∈ options →
  (∀ config s, ∃ s',
     mergeOption parentConfig childConfig config o s = (Throw TypeError, s')) →
  ∀ config s, ∃ s',
    foldM (mergeOption parentConfig childConfig) config options s
      = (Throw TypeError, s').
Proof.
  intros Hin Hthrows.
  induction options as [|o0 options IH]; intros config s.
  - by apply elem_of_nil in Hin.
  - cbn [foldM]. apply elem_of_cons in Hin as [<-|Hin].
    + destruct (Hthrows config s) as [s' Hrun]. exists s'.
      by rewrite (bind_Throw _ _ _ _ _ Hrun).
    + destruct (mergeOption parentConfig childConfig config o0 s)
        as [[config1|e] s1] eqn:Hhead.
      * destruct (IH Hin config1 s1) as [s' Hrest]. exists s'.
        by rewrite (bind_Ok _ _ _ _ _ Hhead).
      * exists s1. rewrite (bind_Throw _ _ _ _ _ Hhead).
        by rewrite (typeErrorsOnly_mergeOption _ _ _ _ _ _ _ Hhead).
Qed.

Lemma mergeChildConfig_throws options parentConfig childConfig o s :
  truthy childConfig = true → o ∈ options →
  (∀ config s, ∃ s',
     mergeOption parentConfig childConfig config o s = (Throw TypeError, s')) →
  ∃ s', mergeChildConfig options parentConfig childConfig s
          = (Throw TypeError, s').
Proof.
  intros Htruthy Hin Hthrows. rewrite mergeChildConfig_run by done.
  destruct (foldM_mergeOption_throws parentConfig childConfig options o Hin
              Hthrows (ownProps childConfig ∪ ownProps parentConfig)
              (mkState (S (next_loc s))
                 (effects s ++ [Log "trace" "mergeChildConfig"])))
    as [s' ->].
  by exists s'.
Qed.

(** A mergeable list option whose non-empty parent value is neither an
    array nor a string has nothing to [concat] with: when the child also
    holds a non-empty value for it, [mergeChildConfig] throws a
    [TypeError]. *)
Theorem mergeChildConfig_unconcatenable_parent
    (options : list optionDef) (lp lc : loc) (parent child : fields)
    (s : state) (o : optionDef) (pv cv : value) :
  o ∈ options → mergeable o = true → type o = "list" →
  parent !! name o = Some pv → child !! name o = Some cv →
  truthy pv = true → truthy cv = true → hasConcat pv = false →
  ∃ s', mergeChildConfig options (VObj lp parent) (VObj lc child) s
          = (Throw TypeError, s').
Proof.
  intros Hin Hm Ht Hp Hc Hpv Hcv Hconcat.
  apply (mergeChildConfig_throws options _ _ o); [done | done |].
  intros config s0. unfold mergeOption, orEmptyArray.
  rewrite Hm, Ht. simpl. rewrite Hp, Hc. run. rewrite Hpv, Hcv. simpl.
  rewrite ?Hpv.
  destruct (truthy (default VUndefined (config !! name o)));
    destruct pv; try discriminate; run; by eexists.
Qed.

Lemma mergeChildConfig_unconcatenable_parent_witness :
  ∃ s', mergeChildConfig sampleOptions
          (object 1 [("labels", VNum 5)]) (VObj 4 childSample) initial
        = (Throw TypeError, s').
Proof.
  apply (mergeChildConfig_unconcatenable_parent sampleOptions 1 4
           (list_to_map [("labels", VNum 5)]) childSample initial
           (mkOption "labels" "list" VUndefined true)
           (VNum 5) (VArr 5 [VStr "renovate"; VStr "child"])).
  - elem_of_list.
  - reflexivity.
  - reflexivity.
  - reflexivity.
  - reflexivity.
  - reflexivity.
  - reflexivity.
  - reflexivity.
Defined.

(** With [undefined] or [null] for a parent, [mergeChildConfig] throws a
    [TypeError] as soon as the child holds a non-empty value for some
    mergeable option, and otherwise returns a new object with the
    properties of the child. *)
Theorem mergeChildConfig_without_parent
    (options : list optionDef) (parentConfig : value) (lc : loc)
    (child : fields) (s : state) :
  nullish parentConfig = true →
  ((∃ o, o ∈ options ∧ mergedFromChild child o) →
   ∃ s', mergeChildConfig options parentConfig (VObj lc child) s
           = (Throw TypeError, s'))
  ∧ ((∀ o, o ∈ options → ¬ mergedFromChild child o) →
     ∃ s', mergeChildConfig options parentConfig (VObj lc child) s
             = (Ok (VObj (next_loc s) child), s')).
Proof.
  intros Hnull.
  assert (Hprops : ownProps parentConfig = ∅) by by destruct parentConfig.
  assert (Hget : ∀ k, get parentConfig k = Throw TypeError)
    by (intros k; by destruct parentConfig).
  split.
  - intros (o & Hin & Hm & Hc).
    apply (mergeChildConfig_throws options _ _ o); [done | done |].
    intros config s0. unfold mergeOption. rewrite Hm. run.
    rewrite Hc. simpl. rewrite Hget. by eexists.
  - intros Hnone. rewrite mergeChildConfig_run by done.
    rewrite Hprops, (right_id_L ∅ (∪)). simpl.
    generalize (mkState (S (next_loc s))
                  (effects s ++ [Log "trace" "mergeChildConfig"])).
    intros s0. exists s0.
    assert (Hloop : foldM (mergeOption parentConfig (VObj lc child)) child
                      options s0 = (Ok child, s0)).
    { induction options as [|o options IH]; [done|]. cbn [foldM].
      assert (Hhead : mergeOption parentConfig (VObj lc child) child o s0
                      = (Ok child, s0)).
      { unfold mergeOption. destruct (mergeable o) eqn:Hm; [|done]. run.
        destruct (truthy (default VUndefined (child !! name o))) eqn:Hc;
          [|done].
        exfalso. apply (Hnone o); [by left | by split]. }
      rewrite (bind_Ok _ _ _ _ _ Hhead). apply IH.
      intros o' Ho'. apply Hnone. by right. }
    by rewrite Hloop.
Qed.

Lemma mergeChildConfig_without_parent_witness :
  nullish VUndefined = true ∧
  ∃ s', mergeChildConfig sampleOptions VUndefined (VObj 4 childSample) initial
          = (Throw TypeError, s').
Proof.
  split; [reflexivity|].
  apply (mergeChildConfig_without_parent sampleOptions VUndefined 4
           childSample initial eq_refl).
  exists (mkOption "labels" "list" VUndefined true).
  split; [elem_of_list | by split].
Defined.





(** The body leaves the object as it is for an option that is not
    mergeable or for which one side has no non-empty value. *)
Lemma mergeOption_skips parentConfig lc child config o s config' s' :
  mergeOption parentConfig (VObj lc child) config o s = (Ok config', s') →
  mergeable o = false
  ∨ truthy (default VUndefined (child !! name o)) = false
  ∨ (∃ pv, get parentConfig (name o) = Ok pv ∧ truthy pv = false) →
  config' = config.
Proof.
  unfold mergeOption. intros Hrun Hskip.
  destruct (mergeable o); simpl in Hrun; [|by inversion Hrun].
  apply bind_inv_Ok in Hrun as (c & s1 & Hc & Hrun).
  unfold lift in Hc. simpl in Hc. inversion Hc; subst.
  destruct (truthy (default VUndefined (child !! name o))) eqn:Htruthy;
    simpl in Hrun; [|by inversion Hrun].
  apply bind_inv_Ok in Hrun as (p & s2 & Hp & Hrun).
  unfold lift in Hp. inversion Hp as [[Hget Hs]].
  destruct Hskip as [?|[?|(pv & Hpv & Hfalsy)]]; try done.
  assert (p = pv) as -> by congruence.
  rewrite Hfalsy in Hrun. simpl in Hrun. by inversion Hrun.
Qed.

(** Plain child-overwrites-parent: a key that no option merges (no
    mergeable option of that name with non-empty values on both sides)
    has in the result the child's value if the child has the key, and
    the parent's value otherwise. *)
Theorem mergeChildConfig_plain_key
    (options : list optionDef) (parentConfig : value) (lc : loc)
    (child : fields) (s : state) (result : value) (s' : state) (k : string) :
  mergeChildConfig options parentConfig (VObj lc child) s = (Ok result, s') →
  (∀ o, o ∈ options → name o = k →
        mergeable o = false
        ∨ truthy (default VUndefined (child !! k)) = false
        ∨ (∃ pv, get parentConfig k = Ok pv ∧ truthy pv = false)) →
  ownProps result !! k =
    match child !! k with
    | Some v => Some v
    | None => ownProps parentConfig !! k
    end.
Proof.
  rewrite mergeChildConfig_run by done. simpl.
  destruct (foldM _ _ _ _) as [[config|e] s1] eqn:Hrun; [|done].
  intros [= <- <-] Hplain. simpl.
  assert (Hsame : config !! k = (child ∪ ownProps parentConfig) !! k).
  { revert Hrun Hplain.
    generalize (child ∪ ownProps parentConfig).
    generalize (mkState (S (next_loc s))
                  (effects s ++ [Log "trace" "mergeChildConfig"])).
    induction options as [|o options IH]; intros s0 config0 Hrun Hplain.
    - simpl in Hrun. by inversion Hrun.
    - cbn [foldM] in Hrun.
      apply bind_inv_Ok in Hrun as (config1 & s2 & Hhead & Hrun).
      rewrite (IH _ _ Hrun) by (intros o' Ho'; apply Hplain; by right).
      destruct (decide (name o = k)) as [Hk|Hk].
      + f_equal. eapply mergeOption_skips; [exact Hhead|].
        rewrite Hk. apply Hplain; [by left | done].
      + by eapply mergeOption_other. }
  rewrite Hsame, lookup_union.
  by destruct (child !! k), (ownProps parentConfig !! k).
Qed.

Lemma mergeChildConfig_plain_key_witness :
  ∃ result s',
    mergeChildConfig sampleOptions (VObj 1 parentSample) (VObj 4 childSample)
      initial = (Ok result, s') ∧
    ownProps result !! "branchName" = Some (VStr "renovate/child").
Proof.
  destruct (mergeChildConfig sampleOptions (VObj 1 parentSample)
              (VObj 4 childSample) initial)
    as [[result|e] s'] eqn:Hrun; [|by vm_compute in Hrun].
  exists result, s'. split; [done|].
  apply (mergeChildConfig_plain_key sampleOptions (VObj 1 parentSample) 4
           childSample initial result s' "branchName" Hrun).
  intros o Ho Hname. left. unfold sampleOptions in Ho.
  repeat (apply elem_of_cons in Ho as [->|Ho];
          [first [discriminate Hname | reflexivity]|]).
  by apply elem_of_nil in Ho.
Defined.

(** [Array.prototype.concat] appends a child value that is not an array
    as one element: a mergeable list option whose child value is, say, a
    string gets the parent's entries followed by that value. *)
Theorem mergeChildConfig_list_with_scalar_child
    (options : list optionDef) (lp lc : loc) (parent child : fields)
    (s : state) (o : optionDef) (a : loc) (xs : list value) (cv : value)
    (result : value) (s' : state) :
  NoDup (name <$> options) → o ∈ options →
  mergeable o = true → type o = "list" →
  parent !! name o = Some (VArr a xs) → child !! name o = Some cv →
  truthy cv = true → (∀ b ys, cv ≠ VArr b ys) →
  mergeChildConfig options (VObj lp parent) (VObj lc child) s
    = (Ok result, s') →
  ∃ l, get result (name o) = Ok (VArr l (xs ++ [cv])).
Proof.
  intros Hnodup Hin Hm Ht Hp Hc Hcv Hscalar.
  rewrite mergeChildConfig_run by done. simpl.
  destruct (foldM _ _ _ _) as [[config|e] s1] eqn:Hrun; [|done].
  intros [= <- <-].
  assert (Hinit : (child ∪ parent) !! name o = Some cv)
    by (by apply lookup_union_Some_l).
  refine (foldM_mergeOption_key
            (λ v, ∃ l, Ok (default VUndefined v) = Ok (VArr l (xs ++ [cv])))
            _ _ options o cv Hnodup Hin _ _ _ _ _ Hinit Hrun).
  intros config0 s0 config0' s0' Hcfg. unfold mergeOption, orEmptyArray.
  rewrite Hm, Ht. simpl. rewrite Hp, Hc, Hcfg. run. rewrite Hcv. simpl.
  rewrite ?Hcv. run.
  intros [= <- <-]. rewrite lookup_insert_eq. simpl.
  exists (next_loc s0). do 3 f_equal.
  destruct cv; try done. by destruct (Hscalar l xs0).
Qed.

Lemma mergeChildConfig_list_with_scalar_child_witness :
  ∃ result s' l,
    mergeChildConfig sampleOptions (VObj 1 parentSample)
      (object 4 [("labels", VStr "child")]) initial = (Ok result, s') ∧
    get result "labels"
      = Ok (VArr l [VStr "deps"; VStr "renovate"; VStr "child"]).
Proof.
  destruct (mergeChildConfig sampleOptions (VObj 1 parentSample)
              (object 4 [("labels", VStr "child")]) initial)
    as [[result|e] s'] eqn:Hrun; [|by vm_compute in Hrun].
  destruct (mergeChildConfig_list_with_scalar_child sampleOptions 1 4
              parentSample (list_to_map [("labels", VStr "child")]) initial
              (mkOption "labels" "list" VUndefined true)
              2 [VStr "deps"; VStr "renovate"] (VStr "child") result s')
    as [l Hl].
  - apply (bool_decide_unpack _). by vm_compute.
  - elem_of_list.
  - reflexivity.
  - reflexivity.
  - reflexivity.
  - reflexivity.
  - reflexivity.
  - done.
  - exact Hrun.
  - by exists result, s', l.
Defined.

(** ** Platform check *)

(** The platform check passes exactly when [config.platform] is one of
    the three supported names and [config.token] or the platform's
    environment variable is non-empty; it changes nothing. *)
Theorem checkPlatform_passes_iff_valid (config env : value) (s : state) :
  checkPlatform config env s = (Ok tt, s) ↔ ∃ p, validPlatform config env p.
Proof.
  split; [|intros [p Hvalid]; by apply (checkPlatform_valid _ _ _ p)].
  rewrite checkPlatform_run. unfold validPlatform.
  destruct (get config "platform") as [pf|] eqn:Hpf; [|done].
  destruct (supportedPlatform pf) as [p|] eqn:Hsup; [|done].
  destruct (get config "token") as [token|] eqn:Htoken; [|done].
  destruct (truthy token) eqn:Htruthy.
  { intros _. exists p, pf, token. eauto 10. }
  destruct (get env (tokenVariable p)) as [credential|] eqn:Hcred; [|done].
  destruct (truthy credential) eqn:Hc; [|done].
  intros _. exists p, pf, token. eauto 10.
Qed.


(** ** Deduplication: shape of the configuration *)



(** When the configuration has no [repositories] array, every discovered
    repository makes [addDiscovered] throw a [TypeError]: there is
    nothing to search and nothing to push to. *)
Theorem addDiscovered_without_repositories_array
    (config repo : value) (s : state) :
  (∀ la xs, get config "repositories" ≠ Ok (VArr la xs)) →
  addDiscovered config repo s = (Throw TypeError, s).
Proof.
  intros Hnot. unfold addDiscovered, pushRepository.
  destruct (repoName repo) as [n|e] eqn:Hn.
  2:{ run. by rewrite (repoName_error _ _ Hn). }
  run.
  destruct (get config "repositories") as [repositories|e] eqn:Hget.
  2:{ rewrite (get_error _ _ _ Hget).
      destruct (truthy n) eqn:Htruthy; simpl; by rewrite ?Htruthy. }
  assert (Hfind : ∀ f, arrayFind repositories f = Throw TypeError).
  { intros f. destruct repositories; try done. by destruct (Hnot l xs). }
  destruct (truthy n) eqn:Htruthy; simpl.
  - by rewrite Hfind.
  - rewrite Htruthy. destruct repositories; try done.
    by destruct (Hnot l xs).
Qed.

Lemma addDiscovered_without_repositories_array_witness :
  addDiscovered (object 1 [("platform", VStr "github")]) (VStr "org/repo")
    initial = (Throw TypeError, initial).
Proof.
  apply (addDiscovered_without_repositories_array
           (object 1 [("platform", VStr "github")]) (VStr "org/repo")
           initial).
  intros la xs. by vm_compute.
Defined.

(** ** Deduplication: order and repetition *)

Lemma strictEq_refl v : strictEq v v = true.
Proof.
  destruct v; simpl; try done.
  - by destruct b.
  - apply Z.eqb_refl.
  - apply String.eqb_refl.
  - apply Nat.eqb_refl.
  - apply Nat.eqb_refl.
Qed.

Lemma identified_named repo : identified repo = true → nullish repo = false.
Proof. unfold identified, repoName. by destruct repo. Qed.

Lemma alreadyListed_app xs ys repo :
  alreadyListed xs repo = true → alreadyListed (xs ++ ys)%list repo = true.
Proof.
  unfold alreadyListed. destruct (repoName repo); [|done].
  rewrite !andb_true_iff, existsb_app, orb_true_iff.
  intros [Hn Hxs]. split; [done | by left].
Qed.

Lemma alreadyListed_self xs repo :
  identified repo = true → alreadyListed (xs ++ [repo])%list repo = true.
Proof.
  unfold identified, alreadyListed, sameIdentifier.
  destruct (repoName repo) as [n|] eqn:Hn; [|done]. intros ->. simpl.
  rewrite existsb_app. simpl. rewrite Hn, strictEq_refl.
  by rewrite orb_true_r.
Qed.

(** The configured entries stay in front; what follows them are
    discovered entries in the order of their discovery. *)
Lemma mergeDiscovered_app xs discovered :
  ∃ added, mergeDiscovered xs discovered = (xs ++ added)%list
           ∧ sublist added discovered.
Proof.
  revert xs. unfold mergeDiscovered.
  induction discovered as [|repo discovered IH]; intros xs; simpl.
  - exists []. by rewrite app_nil_r.
  - destruct (alreadyListed xs repo).
    + destruct (IH xs) as (added & -> & Hsub).
      exists added. split; [done|]. by apply sublist_cons.
    + destruct (IH (xs ++ [repo])%list) as (added & -> & Hsub).
      exists (repo :: added). split; [by rewrite <- app_assoc|].
      by apply sublist_skip.
Qed.

Lemma Forall_of_sublist {A} (P : A → Prop) (k l : list A) :
  sublist k l → Forall P l → Forall P k.
Proof.
  induction 1 as [|x k l _ IH|x k l _ IH]; intros Hl.
  - done.
  - apply Forall_cons in Hl as [Hx Hl]. constructor; auto.
  - apply Forall_cons in Hl as [_ Hl]. auto.
Qed.

Lemma mergeDiscovered_named xs discovered :
  Forall (λ r, nullish r = false) xs →
  Forall (λ r, nullish r = false) discovered →
  Forall (λ r, nullish r = false) (mergeDiscovered xs discovered).
Proof.
  intros Hxs Hd.
  destruct (mergeDiscovered_app xs discovered) as (added & -> & Hsub).
  apply Forall_app. split; [done|].
  by eapply Forall_of_sublist.
Qed.

(** After a pass every discovered entry with an identifier is listed. *)
Lemma mergeDiscovered_lists xs discovered :
  Forall (λ r, identified r = true) discovered →
  Forall (λ r, alreadyListed (mergeDiscovered xs discovered) r = true)
    discovered.
Proof.
  intros Hd. revert xs.
  induction Hd as [|repo discovered Hrepo Hd IH]; intros xs; [done|].
  constructor; [|apply IH].
  change (mergeDiscovered xs (repo :: discovered))
    with (mergeDiscovered
            (if alreadyListed xs repo then xs else (xs ++ [repo])%list)
            discovered).
  destruct (mergeDiscovered_app
              (if alreadyListed xs repo then xs else (xs ++ [repo])%list)
              discovered) as (added & -> & _).
  apply alreadyListed_app.
  destruct (alreadyListed xs repo) eqn:E; [done|].
  by apply alreadyListed_self.
Qed.

Lemma mergeDiscovered_fixed xs discovered :
  Forall (λ r, alreadyListed xs r = true) discovered →
  mergeDiscovered xs discovered = xs.
Proof.
  unfold mergeDiscovered. induction 1 as [|repo discovered Hrepo _ IH]; simpl.
  - done.
  - by rewrite Hrepo.
Qed.

(** Autodiscovery keeps the configured repositories in front, in their
    order and unchanged, and appends after them discovered entries only,
    in the order of their discovery. *)
Theorem addDiscovered_keeps_configured_first (l : loc) (fs : fields)
    (la : loc) (xs discovered : list value) (s : state) :
  fs !! "repositories" = Some (VArr la xs) →
  Forall (λ r, nullish r = false) xs →
  Forall (λ r, nullish r = false) discovered →
  ∃ added s',
    foldM addDiscovered (VObj l fs) discovered s =
      (Ok (VObj l (<["repositories" := VArr la (xs ++ added)%list]> fs)), s')
    ∧ sublist added discovered.
Proof.
  intros Hfs Hxs Hd.
  destruct (foldM_addDiscovered_run l fs la xs discovered s Hfs Hxs Hd)
    as [s' Hrun].
  destruct (mergeDiscovered_app xs discovered) as (added & Heq & Hsub).
  exists added, s'. by rewrite <- Heq.
Qed.

Lemma addDiscovered_keeps_configured_first_witness :
  ∃ added s',
    foldM addDiscovered
      (object 1 [("repositories", VArr 2 [configuredRepo])])
      [VStr "org/other"; VStr "org/repo"] initial =
      (Ok (VObj 1 (<["repositories" := VArr 2 ([configuredRepo] ++ added)%list]>
                     (list_to_map
                        [("repositories", VArr 2 [configuredRepo])]))), s')
    ∧ sublist added [VStr "org/other"; VStr "org/repo"].
Proof.
  apply (addDiscovered_keeps_configured_first 1
           (list_to_map [("repositories", VArr 2 [configuredRepo])]) 2
           [configuredRepo] [VStr "org/other"; VStr "org/repo"] initial).
  - reflexivity.
  - repeat constructor.
  - repeat constructor.
Defined.

(** Discovering the same repositories once more changes nothing, when
    each of them has a non-empty identifier: after the first pass every
    one of them is found in the list. *)
Theorem addDiscovered_again_changes_nothing (l : loc) (fs : fields)
    (la : loc) (xs discovered : list value) (s : state) :
  fs !! "repositories" = Some (VArr la xs) →
  Forall (λ r, nullish r = false) xs →
  Forall (λ r, identified r = true) discovered →
  ∃ config s1,
    foldM addDiscovered (VObj l fs) discovered s = (Ok config, s1) ∧
    ∀ s2, ∃ s3, foldM addDiscovered config discovered s2 = (Ok config, s3).
Proof.
  intros Hfs Hxs Hd.
  assert (Hnamed : Forall (λ r, nullish r = false) discovered).
  { eapply Forall_impl; [done|]. apply identified_named. }
  destruct (foldM_addDiscovered_run l fs la xs discovered s Hfs Hxs Hnamed)
    as [s1 Hrun].
  eexists _, s1. split; [exact Hrun|]. intros s2.
  destruct (foldM_addDiscovered_run l
              (<["repositories" := VArr la (mergeDiscovered xs discovered)]> fs)
              la (mergeDiscovered xs discovered) discovered s2)
    as [s3 Hagain].
  - apply lookup_insert_eq.
  - by apply mergeDiscovered_named.
  - done.
  - exists s3. rewrite Hagain.
    rewrite (mergeDiscovered_fixed _ _ (mergeDiscovered_lists xs _ Hd)).
    by rewrite insert_insert_eq.
Qed.

Lemma addDiscovered_again_changes_nothing_witness :
  ∃ config s1,
    foldM addDiscovered
      (object 1 [("repositories", VArr 2 [configuredRepo])])
      [VStr "org/other"; VStr "org/repo"; VStr "org/other"] initial
      = (Ok config, s1) ∧
    ∀ s2, ∃ s3,
      foldM addDiscovered config
        [VStr "org/other"; VStr "org/repo"; VStr "org/other"] s2
        = (Ok config, s3).
Proof.
  apply (addDiscovered_again_changes_nothing 1
           (list_to_map [("repositories", VArr 2 [configuredRepo])]) 2
           [configuredRepo]
           [VStr "org/other"; VStr "org/repo"; VStr "org/other"] initial).
  - reflexivity.
  - repeat constructor.
  - repeat constructor.
Defined.

(** ** The pipeline: what is returned, what is called *)

Lemma silent_mapM {A B} (f : A → M B) xs :
  (∀ x, silent (f x)) → silent (mapM f xs).
Proof.
  intros Hf. induction xs as [|x xs IH]; simpl.
  - apply silent_ret.
  - apply silent_bind; [apply Hf|]. intros y.
    apply silent_bind; [apply IH|]. intros ys. apply silent_ret.
Qed.

Section PipelineFurther.

Context (defaultsParser_getConfig : reply)
        (fileParser_getConfig cliParser_getConfig envParser_getConfig
           resolveConfigPresets : value → reply)
        (githubApi_getRepos gitlabApi_getRepos vstsApi_getRepos
           : value → value → reply).

Local Abbreviation loadConfig' :=
  (loadConfig defaultsParser_getConfig fileParser_getConfig
     cliParser_getConfig envParser_getConfig resolveConfigPresets).
Local Abbreviation discover' :=
  (discover githubApi_getRepos gitlabApi_getRepos vstsApi_getRepos).
Local Abbreviation finishConfig' := (finishConfig resolveConfigPresets).
Local Abbreviation discoverAndFinish' :=
  (discoverAndFinish resolveConfigPresets githubApi_getRepos
     gitlabApi_getRepos vstsApi_getRepos).
Local Abbreviation parseConfigs' :=
  (parseConfigs defaultsParser_getConfig fileParser_getConfig
     cliParser_getConfig envParser_getConfig resolveConfigPresets
     githubApi_getRepos gitlabApi_getRepos vstsApi_getRepos).

(** Resolving the entries touches no state and relates the lists entry
    by entry. *)
Lemma mapM_resolveRepository xs s ys s' :
  mapM (resolveRepository resolveConfigPresets) xs s = (Ok ys, s') →
  Forall2 (resolvedFrom resolveConfigPresets) xs ys ∧ s' = s.
Proof.
  revert s ys s'. induction xs as [|x xs IH]; intros s ys s'; simpl.
  - by intros [= <- <-].
  - intros Hrun.
    apply bind_inv_Ok in Hrun as (y & s1 & Hx & Hrun).
    apply bind_inv_Ok in Hrun as (ys' & s2 & Hxs & Hrun).
    inversion Hrun; subst.
    apply IH in Hxs as [Hall ->]. 
    assert (resolvedFrom resolveConfigPresets x y ∧ s1 = s) as [Hy ->].
    { unfold resolveRepository, resolvedFrom in *.
      destruct x; try (by inversion Hx).
      unfold call in Hx.
      destruct (resolveConfigPresets (VObj l fs)); by inversion Hx. }
    split; [by constructor | done].
Qed.

Lemma mapM_resolveRepository_fails xs s :
  Exists (λ x, ∃ l fs msg, x = VObj l fs
                           ∧ resolveConfigPresets x = Failure msg) xs →
  ∃ msg, mapM (resolveRepository resolveConfigPresets) xs s
           = (Throw (CollaboratorError msg), s).
Proof.
  induction xs as [|x xs IH]; intros Hex; [by apply Exists_nil in Hex|].
  cbn [mapM].
  destruct (resolveRepository resolveConfigPresets x s) as [[y|e] s1] eqn:Hx.
  - assert (s1 = s) as ->.
    { unfold resolveRepository in Hx. destruct x; try (by inversion Hx).
      unfold call in Hx.
      destruct (resolveConfigPresets (VObj l fs)); by inversion Hx. }
    apply Exists_cons in Hex as [(l & fs & msg & -> & Hfail)|Hex].
    { simpl in Hx. by rewrite Hfail in Hx. }
    destruct (IH Hex) as [msg Hrest]. exists msg.
    rewrite (bind_Ok _ _ _ _ _ Hx).
    by rewrite (bind_Throw _ _ _ _ _ Hrest).
  - pose proof Hx as Hhead.
    unfold resolveRepository in Hx. destruct x; try (by inversion Hx).
    unfold call in Hx.
    destruct (resolveConfigPresets (VObj l fs)) as [|msg] eqn:Hr;
      inversion Hx; subst.
    exists msg. by rewrite (bind_Throw _ _ _ _ _ Hhead).
Qed.

(** What the end of [parseConfigs] does to an object. *)
Lemma finishConfig_object l fs s result s' :
  finishConfig' (VObj l fs) s = (Ok result, s') →
  ∃ fs', result = VObj l fs' ∧
    fs' !! "logFile" = None ∧ fs' !! "logFileLevel" = None ∧
    (∀ k, pipelineKey k = false → fs' !! k = fs !! k) ∧
    ∃ repositories,
      fs' !! "repositories" = repositories ∧
      match fs !! "repositories" with
      | Some (VArr la xs) =>
          ∃ la' ys, repositories = Some (VArr la' ys) ∧
                    Forall2 (resolvedFrom resolveConfigPresets) xs ys
      | other => repositories = other
      end.
Proof.
  unfold finishConfig. intros Hrun.
  apply bind_inv_Ok in Hrun as (repositories & s1 & Hget & Hrun).
  unfold lift in Hget. simpl in Hget. inversion Hget; subst. clear Hget.
  apply bind_inv_Ok in Hrun as (config & s2 & Hconfig & Hrun).
  assert (∃ fs0, config = VObj l fs0 ∧
            (∀ k, k ≠ "repositories" → fs0 !! k = fs !! k) ∧
            match fs !! "repositories" with
            | Some (VArr la xs) =>
                ∃ la' ys, fs0 !! "repositories" = Some (VArr la' ys) ∧
                          Forall2 (resolvedFrom resolveConfigPresets) xs ys
            | other => fs0 !! "repositories" = other
            end) as (fs0 & -> & Hother & Hrepos).
  { destruct (fs !! "repositories") as [[| | | | |la [|x xs]|]|] eqn:Hfs;
      simpl in Hconfig.
    all: try (inversion Hconfig; subst; exists fs; by rewrite Hfs).
    - inversion Hconfig; subst. exists fs. rewrite Hfs.
      split; [done|]. split; [done|]. by exists la, [].
    - apply bind_inv_Ok in Hconfig as (resolved & s3 & Hmap & Hconfig).
      apply (mapM_resolveRepository (x :: xs)) in Hmap as [Hall ->].
      inversion Hconfig; subst. eexists. split; [done|]. split.
      + intros k Hk. by apply lookup_insert_ne.
      + eexists _, _. split; [apply lookup_insert_eq | done]. }
  apply bind_inv_Ok in Hrun as ([] & s3 & _ & Hrun).
  simpl in Hrun. inversion Hrun; subst. eexists. split; [done|].
  split; [rewrite lookup_delete_ne by done; apply lookup_delete_eq|].
  split; [apply lookup_delete_eq|]. split.
  - intros k Hk. unfold pipelineKey in Hk.
    apply orb_false_iff in Hk as [Hk Hlevel].
    apply orb_false_iff in Hk as [Hrep Hfile].
    apply String.eqb_neq in Hrep, Hfile, Hlevel.
    rewrite !lookup_delete_ne by done. by apply Hother.
  - eexists. split; [done|]. rewrite !lookup_delete_ne by done.
    destruct (fs !! "repositories") as [[]|]; done.
Qed.

(** At its regular end [parseConfigs] resolves the repository entries
    one by one, in order: an object entry becomes what the preset
    resolver answers for it, any other entry (a bare name) stays as it
    is; the list keeps its length. *)
Theorem finishConfig_resolves_each_repository (l : loc) (fs : fields)
    (la : loc) (xs : list value) (s : state) (result : value) (s' : state) :
  fs !! "repositories" = Some (VArr la xs) →
  finishConfig' (VObj l fs) s = (Ok result, s') →
  ∃ la' ys, get result "repositories" = Ok (VArr la' ys) ∧
            Forall2 (resolvedFrom resolveConfigPresets) xs ys.
Proof.
  intros Hfs Hrun.
  apply finishConfig_object in Hrun
    as (fs' & -> & _ & _ & _ & repositories & Hrepos & Hcases).
  rewrite Hfs in Hcases. destruct Hcases as (la' & ys & -> & Hall).
  exists la', ys. simpl. by rewrite Hrepos.
Qed.

(** When the preset resolver fails on one object entry of a
    [repositories] array, [parseConfigs] fails at its end with the
    failure of the resolver. *)
Theorem finishConfig_fails_with_repository_presets (l : loc) (fs : fields)
    (la : loc) (xs : list value) (s : state) :
  fs !! "repositories" = Some (VArr la xs) →
  Exists (λ x, ∃ l fs msg, x = VObj l fs
                           ∧ resolveConfigPresets x = Failure msg) xs →
  ∃ msg, finishConfig' (VObj l fs) s = (Throw (CollaboratorError msg), s).
Proof.
  intros Hfs Hex. unfold finishConfig. run. rewrite Hfs. simpl.
  destruct (mapM_resolveRepository_fails xs s Hex) as [msg Hmap].
  exists msg. destruct xs as [|x xs]; [by apply Exists_nil in Hex|].
  by rewrite Hmap.
Qed.

Lemma silent_resolveRepository repo :
  silent (resolveRepository resolveConfigPresets repo).
Proof. unfold resolveRepository. solve_silent. Qed.

Lemma silent_finishConfig config : silent (finishConfig' config).
Proof.
  unfold finishConfig, log.
  apply silent_bind; [apply silent_lift|]. intros repositories.
  apply silent_bind; [|intros ?; solve_silent].
  destruct repositories as [| | | | |la [|x xs]|]; try apply silent_ret.
  apply silent_bind; [|intros ?; solve_silent].
  apply silent_mapM, silent_resolveRepository.
Qed.

(** Without autodiscovery [parseConfigs] makes no repository-listing
    call, whether it returns or throws. *)
Theorem parseConfigs_lists_only_on_autodiscover (env argv : value)
    (s s1 : state) (config : value) (r : result value) (s' : state) :
  loadConfig' env argv s = (Ok config, s1) →
  (∀ autodiscover, get config "autodiscover" = Ok autodiscover →
                   truthy autodiscover = false) →
  parseConfigs' env argv s = (r, s') →
  listingCalls s' = listingCalls s.
Proof.
  intros Hload Hoff. unfold parseConfigs.
  rewrite (bind_Ok _ _ _ _ _ Hload).
  rewrite <- (silent_loadConfig _ _ _ _ _ _ _ _ _ _ Hload).
  generalize s1. clear Hload. intros s0 Hrun.
  assert (Hsilent : silent (configureLogging config;;
                            checkPlatform config env;;
                            discoverAndFinish' config)); [|by eapply Hsilent].
  apply silent_bind; [apply silent_configureLogging|]. intros _.
  apply silent_bind.
  { intros sa ra sb Hcheck. by apply checkPlatform_state in Hcheck as ->. }
  intros _. unfold discoverAndFinish.
  destruct (get config "autodiscover") as [autodiscover|e] eqn:Hget.
  - intros sa ra sb. unfold mbind, M_bind, bind, lift.
    rewrite (Hoff autodiscover eq_refl). apply silent_finishConfig.
  - intros sa ra sb. unfold mbind, M_bind, bind, lift. by intros [= _ <-].
Qed.

(** Autodiscovery makes exactly one repository-listing call: on the
    configured platform, with [config.token] and [config.endpoint]
    (not with the credential of the environment). *)
Theorem discover_calls_configured_platform (config : value) (p : platform)
    (token endpoint : value) (s : state) (r : result (list value))
    (s' : state) :
  get config "platform" = Ok (VStr (platformName p)) →
  get config "token" = Ok token → get config "endpoint" = Ok endpoint →
  discover' config s = (r, s') →
  listingCalls s' = (listingCalls s ++ [GetRepos p token endpoint])%list.
Proof.
  intros Hpf Htoken Hendpoint.
  unfold discover, listRepos, platformIs. run. rewrite Hpf. simpl.
  destruct p; simpl; rewrite Htoken, Hendpoint; simpl.
  all: match goal with
       | |- context [call ?c] => destruct c as [repos|msg]; simpl
       end.
  all: try (destruct (iterate repos)).
  all: intros [= _ <-]; unfold listingCalls; simpl.
  all: rewrite !filter_app; simpl.
  all: by rewrite !filter_cons_False, !filter_nil, ?app_nil_r, ?filter_cons_True
         by done.
Qed.

(** When a loader or the preset resolver fails, [parseConfigs] fails
    with that failure; until then it has only logged its first
    message: no logger is configured and no platform is asked. *)
Theorem parseConfigs_fails_with_loadConfig (env argv : value)
    (s s1 : state) (e : error) :
  loadConfig' env argv s = (Throw e, s1) →
  parseConfigs' env argv s = (Throw e, s1) ∧
  (∃ msg, e = CollaboratorError msg) ∧
  effects s1 = (effects s ++ [Log "debug" "Parsing configs"])%list.
Proof.
  intros Hload. split; [unfold parseConfigs; by rewrite (bind_Throw _ _ _ _ _ Hload)|].
  revert Hload. unfold loadConfig. run.
  destruct defaultsParser_getConfig; simpl; [|intros [= <- <-]; eauto].
  destruct (fileParser_getConfig env); simpl; [|intros [= <- <-]; eauto].
  destruct (cliParser_getConfig argv); simpl; [|intros [= <- <-]; eauto].
  destruct (envParser_getConfig env); simpl; [|intros [= <- <-]; eauto].
  destruct (resolveConfigPresets _); simpl; [done|intros [= <- <-]; eauto].
Qed.


End PipelineFurther.

(** The only failure of [mergeChildConfig] is a [TypeError]: it throws
    no other error. *)
Theorem mergeChildConfig_throws_only_TypeError
    (options : list optionDef) (parentConfig childConfig : value)
    (s : state) (e : error) (s' : state) :
  mergeChildConfig options parentConfig childConfig s = (Throw e, s') →
  e = TypeError.
Proof. apply typeErrorsOnly_mergeChildConfig. Qed.

Lemma mergeChildConfig_throws_only_TypeError_witness :
  ∃ e s',
    mergeChildConfig sampleOptions (object 1 [("labels", VBool true)])
      (VObj 4 childSample) initial = (Throw e, s')
    ∧ e = TypeError.
Proof.
  destruct (mergeChildConfig sampleOptions (object 1 [("labels", VBool true)])
              (VObj 4 childSample) initial)
    as [[result|e] s'] eqn:Hrun; [by vm_compute in Hrun|].
  exists e, s'. split; [done|].
  exact (mergeChildConfig_throws_only_TypeError sampleOptions
           (object 1 [("labels", VBool true)]) (VObj 4 childSample)
           initial e s' Hrun).
Defined.

Lemma finishConfig_resolves_each_repository_witness :
  ∃ result s' la' ys,
    finishConfig noPresets (VObj 1 twoRepositories) initial = (Ok result, s')
    ∧ get result "repositories" = Ok (VArr la' ys)
    ∧ Forall2 (resolvedFrom noPresets) [configuredRepo; VStr "org/other"] ys.
Proof.
  destruct (finishConfig noPresets (VObj 1 twoRepositories) initial)
    as [[result|e] s'] eqn:Hrun; [|by vm_compute in Hrun].
  destruct (finishConfig_resolves_each_repository noPresets 1 twoRepositories
              2 [configuredRepo; VStr "org/other"] initial result s'
              eq_refl Hrun) as (la' & ys & Hget & Hall).
  by exists result, s', la', ys.
Defined.

Lemma finishConfig_fails_with_repository_presets_witness :
  ∃ msg, finishConfig failingPresets (VObj 1 twoRepositories) initial
           = (Throw (CollaboratorError msg), initial).
Proof.
  apply (finishConfig_fails_with_repository_presets failingPresets 1
           twoRepositories 2 [configuredRepo; VStr "org/other"] initial).
  - reflexivity.
  - apply Exists_cons_hd. eexists _, _, _. split; reflexivity.
Defined.

Lemma parseConfigs_lists_only_on_autodiscover_witness :
  ∃ r s',
    parseConfigs (Reply defaultsSample) (λ _, Reply plainFileSample)
      (λ _, Reply (object 4 [])) (λ _, Reply (object 5 []))
      noPresets oneRepo oneRepo oneRepo (object 6 []) (VArr 7 []) initial
      = (r, s')
    ∧ listingCalls s' = listingCalls initial.
Proof.
  destruct (parseConfigs (Reply defaultsSample) (λ _, Reply plainFileSample)
              (λ _, Reply (object 4 [])) (λ _, Reply (object 5 []))
              noPresets oneRepo oneRepo oneRepo (object 6 []) (VArr 7 [])
              initial) as [r s'] eqn:Hrun.
  exists r, s'. split; [done|].
  apply (parseConfigs_lists_only_on_autodiscover (Reply defaultsSample)
           (λ _, Reply plainFileSample)
           (λ _, Reply (object 4 [])) (λ _, Reply (object 5 []))
           noPresets oneRepo oneRepo oneRepo (object 6 []) (VArr 7 [])
           initial (mkState 101 [Log "debug" "Parsing configs"])
           (VObj 100 (mergeSources defaultsSample plainFileSample
                        (object 4 []) (object 5 []))) r s').
  - reflexivity.
  - intros autodiscover. vm_compute. by intros [= <-].
  - exact Hrun.
Defined.

Lemma discover_calls_configured_platform_witness :
  ∃ r s',
    discover noRepos oneRepo oneRepo resolvedSample initial = (r, s')
    ∧ listingCalls s'
      = (listingCalls initial ++ [GetRepos Github (VStr "abc") VUndefined])%list.
Proof.
  destruct (discover noRepos oneRepo oneRepo resolvedSample initial)
    as [r s'] eqn:Hrun.
  exists r, s'. split; [done|].
  apply (discover_calls_configured_platform noRepos oneRepo oneRepo
           resolvedSample Github (VStr "abc") VUndefined initial r s');
    [reflexivity | reflexivity | reflexivity | exact Hrun].
Defined.

Lemma parseConfigs_fails_with_loadConfig_witness :
  parseConfigs (Reply defaultsSample) brokenFile
    (λ _, Reply (object 4 [])) (λ _, Reply (object 5 []))
    noPresets noRepos noRepos noRepos (object 6 []) (VArr 7 []) initial
  = (Throw (CollaboratorError "Invalid config file"),
     mkState 100 [Log "debug" "Parsing configs"]).
Proof.
  apply (parseConfigs_fails_with_loadConfig (Reply defaultsSample) brokenFile
           (λ _, Reply (object 4 [])) (λ _, Reply (object 5 []))
           noPresets noRepos noRepos noRepos (object 6 []) (VArr 7 [])
           initial (mkState 100 [Log "debug" "Parsing configs"])
           (CollaboratorError "Invalid config file")).
  reflexivity.
Defined.

